(** * BMTrain LAMB: the overflow-gated LAMB optimizer step and the NoDecay
      learning-rate scheduler

    Shallow embedding of [bmtrain/optim/lamb.py] and
    [bmtrain/lr_scheduler/no_decay.py].

    Floating-point tensors are idealised as lists of real numbers (exact
    arithmetic); gradient elements additionally carry the two non-finite
    classes the overflow detector looks for.  Python exceptions are an explicit
    outcome, and an exception keeps every mutation done before it was raised,
    as in-place tensor updates do. *)

From Stdlib Require Import Reals ZArith List Bool Lra Lia.
Import ListNotations.

Open Scope R_scope.

(** ** Outcomes *)

(** The Python exceptions the modelled code can raise. *)
Inductive exn : Set :=
| ValueError
| OverflowError
| RuntimeError
| KeyError
| ZeroDivisionError.

Inductive Result (A : Type) : Type :=
| Returned (a : A)
| Raised (e : exn).
Arguments Returned {A} a.
Arguments Raised {A} e.

(** ** NoDecay scheduler (no_decay.py) *)

Module NoDecay.

(** The attributes of the scheduler object the two methods read. *)
Record t : Type := mk {
  start_lr : R;
  warmup_iter : Z
}.

(** [start_lr * num_iter / warmup_iter]; Python's true division raises
    on a zero divisor. *)
Definition get_lr_warmpup (self : t) (num_iter : Z) : Result R :=
  if (warmup_iter self =? 0)%Z then Raised ZeroDivisionError
  else Returned (start_lr self * IZR num_iter / IZR (warmup_iter self)).

Definition get_lr_decay (self : t) (num_iter : Z) : Result R :=
  Returned (start_lr self).

(** Modelled from the spec: the phase dispatch of the absent base class
    [WarmupLRScheduler] (warmup.py).  The spec's [effective_lr] is the
    warmup curve while the iteration count is below [warmup_iters] and the
    post-warmup policy from then on. *)
Definition effective_lr (self : t) (num_iter : Z) : Result R :=
  if (num_iter <? warmup_iter self)%Z then get_lr_warmpup self num_iter
  else get_lr_decay self num_iter.

End NoDecay.

(** ** Data model of the optimizer (lamb.py) *)

(** An element of a gradient tensor: a finite value, or one of the two
    classes [f_has_inf_nan] detects. *)
Inductive fval : Type :=
| finite (x : R)
| inf
| nan.

Definition is_inf_nan (x : fval) : bool :=
  match x with finite _ => false | _ => true end.

(** Real value of a gradient element.  The update kernels run only on
    gradients the detector has passed, so the value chosen for [inf] and [nan]
    is never used by a step. *)
Definition fval_R (x : fval) : R :=
  match x with finite r => r | _ => 0 end.

(** [p.grad]: its layout flag and its elements. *)
Record Grad : Type := mkGrad {
  is_sparse : bool;
  values : list fval
}.

(** [self.state[p]] once initialised: the keys ['step'], ['exp_avg'],
    ['exp_avg_sq'] and ['param_fp32']. *)
Record PState : Type := mkPState {
  step_count : Z;
  exp_avg : list R;
  exp_avg_sq : list R;
  param_fp32 : list R
}.

(** A parameter tensor [p] with its gradient ([None] is Python's [None]) and
    its entry in [self.state] ([None] is the empty dict, [len(state) == 0]).
    [torch.optim.Optimizer] keys the state by tensor identity and refuses a
    tensor in two groups, so the entry is kept with the parameter. *)
Record Param : Type := mkParam {
  p_data : list R;
  p_grad : option Grad;
  p_state : option PState
}.

(** One entry of [self.param_groups]. *)
Record Group : Type := mkGroup {
  params : list Param;
  lr : R;
  betas : R * R;
  eps : R;
  weight_decay : R
}.

Record LambOptimizer : Type := mkOpt {
  param_groups : list Group;
  _scale : R;
  _steps_since_last_scale : Z;
  _hold_steps : Z
}.

(** The communicator handle, seen from this worker: what the other workers of
    the group contribute to the collective with a given sequence number, for a
    [uint8] buffer and for a [float32] buffer. *)
Record Comm : Type := mkComm {
  peers_u8 : nat -> list Z;
  peers_f32 : nat -> list R
}.

(** The global [config] dict, as far as lamb.py reads it: the key ["comm"]
    may be absent. *)
Record Config : Type := mkConfig {
  comm : option Comm
}.

(** A closure "reevaluates the model and returns the loss": it reads the
    parameters and yields the loss and fresh gradients, one per parameter and
    group, in the order of [param_groups]. *)
Definition Closure : Type := list Group -> R * list (list (option Grad)).

(** ** Collaborators outside lamb.py *)

(** Modelled from the spec: the overflow detector [adam_cuda.f_has_inf_nan]
    (a CUDA kernel, absent).  It sets the flag when some element of the
    gradient is infinite or not-a-number and leaves it as it is otherwise. *)
Definition f_has_inf_nan (g : Grad) (flag : Z) : Z :=
  if existsb is_inf_nan (values g) then 1%Z else flag.

(** Modelled from the spec: [nccl.allReduce] (absent) with op ["max"] and op
    ["sum"]: the reduction of the local value with the values of the other
    workers, in place. *)
Definition allReduce_max (c : Comm) (seq : nat) (x : Z) : Z :=
  fold_left Z.max (peers_u8 c seq) x.

Definition allReduce_sum (c : Comm) (seq : nat) (x : R) : R :=
  fold_left Rplus (peers_f32 c seq) x.

(** The four aligned inputs of the element-wise kernels: master value,
    gradient, momentum and variance. *)
Definition zip4 (ms : list R) (gs : list fval) (m v : list R)
  : list (R * R * R * R) :=
  map (fun x => match x with (a, g, (b, c)) => (a, fval_R g, b, c) end)
      (combine (combine ms gs) (combine m v)).

Section Kernels.
Variables (beta1 beta2 eps_ scale wd : R) (t : Z).

(** Modelled from the spec: the element-wise part of the prepare phase
    (§4.4 step 5): the updated moments. *)
Definition new_m (x : R * R * R * R) : R :=
  match x with (_, g, m, _) => beta1 * m + (1 - beta1) * (g / scale) end.

Definition new_v (x : R * R * R * R) : R :=
  match x with
  | (_, g, _, v) => beta2 * v + (1 - beta2) * ((g / scale) * (g / scale))
  end.

(** Modelled from the spec: the bias-corrected update direction [u], with
    weight decay applied to the master value. *)
Definition direction (x : R * R * R * R) : R :=
  match x with
  | (w, _, _, _) =>
      (new_m x / (1 - beta1 ^ Z.to_nat t))
      / (sqrt (new_v x / (1 - beta2 ^ Z.to_nat t)) + eps_)
      + wd * w
  end.

Definition sum_sq (l : list R) : R :=
  fold_right (fun x acc => x * x + acc) 0 l.

(** Modelled from the spec: [lamb_cuda.f_lamb_prepare] (a CUDA kernel,
    absent).  It writes the local partial sums [numer] (squared norm of the
    master copy) and [denom] (squared norm of the update direction) and
    nothing else; the candidate learning rate it is passed does not enter
    them. *)
Definition f_lamb_prepare (st : PState) (g : Grad) : R * R :=
  let xs := zip4 (param_fp32 st) (values g) (exp_avg st) (exp_avg_sq st) in
  (sum_sq (param_fp32 st), sum_sq (map direction xs)).

(** Modelled from the spec: the apply phase [adam_cuda.f_adam] (a CUDA
    kernel, absent), §4.4 step 8: it writes back the updated moments, sets
    [master += -lr * u] and casts the master copy into the working copy.
    Returns the new state and the new working copy. *)
Definition f_adam (lr_ : R) (st : PState) (g : Grad) : PState * list R :=
  let xs := zip4 (param_fp32 st) (values g) (exp_avg st) (exp_avg_sq st) in
  let master :=
    map (fun x => match x with (w, _, _, _) => w - lr_ * direction x end) xs in
  ({| step_count := step_count st;
      exp_avg := map new_m xs;
      exp_avg_sq := map new_v xs;
      param_fp32 := master |},
   master).
End Kernels.

(** ** The optimizer's methods *)

Definition zeros (n : nat) : list R := repeat 0 n.

(** [__init__]: the range checks of the hyperparameters, then
    [torch.optim.Optimizer.__init__], which refuses an empty parameter list,
    makes one group out of a list of tensors and starts with an empty state
    for every tensor.  [scale] and [hold_steps] are stored unchecked. *)
Definition __init__ (ps : list Param) (lr_ : R) (betas_ : R * R)
  (eps_ weight_decay_ scale : R) (hold_steps : Z) : Result LambOptimizer :=
  if Rle_dec 0 lr_ then
    if Rle_dec 0 eps_ then
      if Rle_dec 0 (fst betas_) then
        if Rlt_dec (fst betas_) 1 then
          if Rle_dec 0 (snd betas_) then
            if Rlt_dec (snd betas_) 1 then
              if Rle_dec 0 weight_decay_ then
                match ps with
                | [] => Raised ValueError
                | _ =>
                    Returned
                      {| param_groups :=
                           [ {| params :=
                                  map (fun p => {| p_data := p_data p;
                                                   p_grad := p_grad p;
                                                   p_state := None |}) ps;
                                lr := lr_; betas := betas_; eps := eps_;
                                weight_decay := weight_decay_ |} ];
                         _scale := scale;
                         _steps_since_last_scale := 0;
                         _hold_steps := hold_steps |}
                end
              else Raised ValueError
            else Raised ValueError
          else Raised ValueError
        else Raised ValueError
      else Raised ValueError
    else Raised ValueError
  else Raised ValueError.

(** Lines 47-48: [state['exp_avg'] *= delta; state['exp_avg_sq'] *= delta]. *)
Definition scale_moments (delta : R) (st : PState) : PState :=
  {| step_count := step_count st;
     exp_avg := map (fun x => x * delta) (exp_avg st);
     exp_avg_sq := map (fun x => x * delta) (exp_avg_sq st);
     param_fp32 := param_fp32 st |}.

(** The body of the loop of [justify_scale] for one parameter. *)
Definition rescale_param (delta : R) (p : Param) : Param :=
  match p_state p with
  | None => p
  | Some st =>
      {| p_data := p_data p;
         p_grad := p_grad p;
         p_state := Some (scale_moments delta st) |}
  end.

Definition rescale_group (delta : R) (g : Group) : Group :=
  {| params := map (rescale_param delta) (params g);
     lr := lr g; betas := betas g; eps := eps g;
     weight_decay := weight_decay g |}.

(** [justify_scale]: [scale / self._scale] is Python's division of numbers,
    which raises on a zero divisor, before anything is written. *)
Definition justify_scale (scale : R) (o : LambOptimizer)
  : Result unit * LambOptimizer :=
  if Req_dec_T (_scale o) 0 then (Raised ZeroDivisionError, o)
  else
    let delta := scale / _scale o in
    (Returned tt,
     {| param_groups := map (rescale_group delta) (param_groups o);
        _scale := scale;
        _steps_since_last_scale := 0;
        _hold_steps := _hold_steps o |}).

(** What running the closure does to the parameters: every [p.grad] is
    replaced by the gradient the closure computed for it. *)
Definition set_grad (p : Param) (g : option Grad) : Param :=
  {| p_data := p_data p; p_grad := g; p_state := p_state p |}.

Fixpoint set_grads_params (ps : list Param) (gs : list (option Grad))
  : list Param :=
  match ps, gs with
  | p :: ps', g :: gs' => set_grad p g :: set_grads_params ps' gs'
  | _, _ => ps
  end.

Fixpoint set_grads (grs : list Group) (gss : list (list (option Grad)))
  : list Group :=
  match grs, gss with
  | g :: grs', gs :: gss' =>
      {| params := set_grads_params (params g) gs;
         lr := lr g; betas := betas g; eps := eps g;
         weight_decay := weight_decay g |} :: set_grads grs' gss'
  | _, _ => grs
  end.

(** Lines 60-63: [loss = None], or the closure's loss with the gradients it
    left behind. *)
Definition run_closure (closure : option Closure) (o : LambOptimizer)
  : option R * LambOptimizer :=
  match closure with
  | None => (None, o)
  | Some c =>
      let '(l, gss) := c (param_groups o) in
      (Some l,
       {| param_groups := set_grads (param_groups o) gss;
          _scale := _scale o;
          _steps_since_last_scale := _steps_since_last_scale o;
          _hold_steps := _hold_steps o |})
  end.

(** Lines 66-70: the local overflow flag, over every parameter with a
    gradient. *)
Definition scan_params (ps : list Param) (flag : Z) : Z :=
  fold_left (fun fl p => match p_grad p with
                         | Some g => f_has_inf_nan g fl
                         | None => fl
                         end) ps flag.

Definition has_inf_or_nan (grs : list Group) : Z :=
  fold_left (fun fl g => scan_params (params g) fl) grs 0%Z.

(** Lines 72-73: the flag is MAX-reduced only when ["comm"] is in [config].
    Returns the flag and the next collective sequence number. *)
Definition reduce_flag (cfg : Config) (seq : nat) (flag : Z) : Z * nat :=
  match comm cfg with
  | Some c => (allReduce_max c seq flag, S seq)
  | None => (flag, seq)
  end.

(** Lazy state initialization, lines 89-97. *)
Definition init_state (p : Param) : PState :=
  {| step_count := 0;
     exp_avg := zeros (length (p_data p));
     exp_avg_sq := zeros (length (p_data p));
     param_fp32 := p_data p |}.

Definition state_of (p : Param) : PState :=
  match p_state p with
  | Some st => st
  | None => init_state p
  end.

Definition incr_step (st : PState) : PState :=
  {| step_count := step_count st + 1;
     exp_avg := exp_avg st;
     exp_avg_sq := exp_avg_sq st;
     param_fp32 := param_fp32 st |}.

(** Line 104. *)
Definition candidate_lr (hold : Z) (g : Group) (st : PState) : R :=
  if (step_count st <=? hold)%Z then 0 else lr g.

(** Line 122, on the reduced sums. *)
Definition trust_lr (lr_ numer denom : R) : R :=
  lr_ * sqrt (numer / (denom + 1e-10)).

Section Update.
Variables (cfg : Config) (scale : R) (hold : Z).

(** The body of the update loop, lines 83-136, for one parameter of group
    [g]: the new parameter, the next collective sequence number and how the
    body ended.  The [KeyError] of [config["comm"]] comes after the state
    was initialised and its step advanced. *)
Definition update_param (g : Group) (p : Param) (seq : nat)
  : Result unit * Param * nat :=
  match p_grad p with
  | None => (Returned tt, p, seq)
  | Some gr =>
      if is_sparse gr then (Raised RuntimeError, p, seq)
      else
        let st := incr_step (state_of p) in
        let lr0 := candidate_lr hold g st in
        let '(numer, denom) :=
          f_lamb_prepare (fst (betas g)) (snd (betas g)) (eps g) scale
            (weight_decay g) (step_count st) st gr in
        match comm cfg with
        | None =>
            (Raised KeyError,
             {| p_data := p_data p; p_grad := p_grad p; p_state := Some st |},
             seq)
        | Some c =>
            let numer' := allReduce_sum c seq numer in
            let denom' := allReduce_sum c (S seq) denom in
            let lr1 := trust_lr lr0 numer' denom' in
            let '(st', w) :=
              f_adam (fst (betas g)) (snd (betas g)) (eps g) scale
                (weight_decay g) (step_count st) lr1 st gr in
            (Returned tt,
             {| p_data := w; p_grad := p_grad p; p_state := Some st' |},
             S (S seq))
        end
  end.

(** The inner loop, [for p in group['params']]: an exception leaves the
    parameters after the failing one as they were. *)
Fixpoint update_params (g : Group) (ps : list Param) (seq : nat)
  : Result unit * list Param * nat :=
  match ps with
  | [] => (Returned tt, [], seq)
  | p :: rest =>
      match update_param g p seq with
      | (Returned _, p', seq') =>
          let '(r, rest', seq'') := update_params g rest seq' in
          (r, p' :: rest', seq'')
      | (Raised e, p', seq') => (Raised e, p' :: rest, seq')
      end
  end.

Definition with_params (g : Group) (ps : list Param) : Group :=
  {| params := ps; lr := lr g; betas := betas g; eps := eps g;
     weight_decay := weight_decay g |}.

(** The outer loop, [for group in self.param_groups]. *)
Fixpoint update_groups (grs : list Group) (seq : nat)
  : Result unit * list Group * nat :=
  match grs with
  | [] => (Returned tt, [], seq)
  | g :: rest =>
      match update_params g (params g) seq with
      | (Returned _, ps', seq') =>
          let '(r, rest', seq'') := update_groups rest seq' in
          (r, with_params g ps' :: rest', seq'')
      | (Raised e, ps', seq') => (Raised e, with_params g ps' :: rest, seq')
      end
  end.
End Update.

(** Line 78: [self._steps_since_last_scale += 1]. *)
Definition tick (o : LambOptimizer) : LambOptimizer :=
  {| param_groups := param_groups o;
     _scale := _scale o;
     _steps_since_last_scale := _steps_since_last_scale o + 1;
     _hold_steps := _hold_steps o |}.

Definition with_groups (o : LambOptimizer) (grs : list Group) : LambOptimizer :=
  {| param_groups := grs;
     _scale := _scale o;
     _steps_since_last_scale := _steps_since_last_scale o;
     _hold_steps := _hold_steps o |}.

(** [step]: the outcome (the returned loss or the exception raised), the
    optimizer as the call leaves it, and the next collective sequence
    number. *)
Definition step (cfg : Config) (closure : option Closure)
  (o : LambOptimizer) (seq : nat)
  : Result (option R) * LambOptimizer * nat :=
  let '(loss, o1) := run_closure closure o in
  let '(flag, seq1) := reduce_flag cfg seq (has_inf_or_nan (param_groups o1)) in
  if (0 <? flag)%Z then (Raised OverflowError, o1, seq1)
  else
    let o2 := tick o1 in
    match update_groups cfg (_scale o2) (_hold_steps o2) (param_groups o2) seq1 with
    | (Returned _, grs, seq2) => (Returned loss, with_groups o2 grs, seq2)
    | (Raised e, grs, seq2) => (Raised e, with_groups o2 grs, seq2)
    end.

(** The read-only properties [scale] and [steps_since_last_scale]. *)
Definition scale (o : LambOptimizer) : R := _scale o.

Definition steps_since_last_scale (o : LambOptimizer) : Z :=
  _steps_since_last_scale o.

(** [loss_scale]: [loss * (self.scale / config['world_size'])].  The entry
    ['world_size'] of the global [config] is the argument [world_size], [None]
    when the key is absent; the quotient is a division of Python numbers,
    evaluated before the product. *)
Definition loss_scale (world_size : option Z) (o : LambOptimizer) (loss : R)
  : Result R :=
  match world_size with
  | None => Raised KeyError
  | Some n =>
      if (n =? 0)%Z then Raised ZeroDivisionError
      else Returned (loss * (scale o / IZR n))
  end.

(** ** Histories of an optimizer *)

(** What the training loop does to an optimizer between construction and now:
    a backward pass writes the gradients, [step] and [justify_scale] are the
    two mutating methods.  Exceptions are caught by the caller, the object
    lives on as the failed call left it. *)
Inductive op : Type :=
| OpBackward (gss : list (list (option Grad)))
| OpStep (closure : option Closure)
| OpJustifyScale (scale : R).

Definition run_op (cfg : Config) (w : LambOptimizer * nat) (a : op)
  : LambOptimizer * nat :=
  match a with
  | OpBackward gss => (with_groups (fst w) (set_grads (param_groups (fst w)) gss), snd w)
  | OpStep closure =>
      let '(_, o', seq') := step cfg closure (fst w) (snd w) in (o', seq')
  | OpJustifyScale s => (snd (justify_scale s (fst w)), snd w)
  end.

Definition run_ops (cfg : Config) (w : LambOptimizer * nat) (l : list op)
  : LambOptimizer * nat :=
  fold_left (run_op cfg) l w.

Definition positive_rescale (a : op) : Prop :=
  match a with
  | OpJustifyScale s => 0 < s
  | _ => True
  end.

(** ** Observations used by the statements *)

(** The optimizer state of every parameter, in iteration order. *)
Definition states (grs : list Group) : list (list (option PState)) :=
  map (fun g => map p_state (params g)) grs.

(** The working copy of every parameter, in iteration order. *)
Definition workings (grs : list Group) : list (list (list R)) :=
  map (fun g => map p_data (params g)) grs.

(** The overflow flag as [step] tests it on line 75: the local flag after the
    closure has run, MAX-reduced when a group is configured. *)
Definition overflow_flag (cfg : Config) (closure : option Closure)
  (o : LambOptimizer) (seq : nat) : Z :=
  fst (reduce_flag cfg seq
         (has_inf_or_nan (param_groups (snd (run_closure closure o))))).

Definition outcome {A B C : Type} (x : Result A * B * C) : Result A := fst (fst x).
Definition final {A B C : Type} (x : A * B * C) : B := snd (fst x).

(** What the caller receives as the value of the call. *)
Definition returned {A : Type} (r : Result A) : option A :=
  match r with
  | Returned a => Some a
  | Raised _ => None
  end.

(** Every element of every gradient is finite. *)
Definition finite_grads (ps : list Param) : Prop :=
  Forall (fun p => forall g, p_grad p = Some g ->
                   existsb is_inf_nan (values g) = false) ps.

(** The ways the update loop can end. *)
Definition loop_outcome (r : Result unit) : Prop :=
  match r with
  | Returned _ => True
  | Raised e => e = RuntimeError \/ e = KeyError
  end.

Definition has_grad (p : Param) : bool :=
  match p_grad p with Some _ => true | None => false end.

Definition sparse_grad (p : Param) : bool :=
  match p_grad p with Some g => is_sparse g | None => false end.

Definition count_grads (ps : list Param) : nat :=
  length (filter has_grad ps).

Definition all_params (grs : list Group) : list Param :=
  flat_map params grs.

(** A parameter that went through the loop body without an exception: left
    alone without a gradient, its step advanced by one with one. *)
Definition advanced (p p' : Param) : Prop :=
  match p_grad p with
  | None => p' = p
  | Some _ =>
      option_map step_count (p_state p') = Some (step_count (state_of p) + 1)%Z
  end.

(** Groups that went through the loop: their hyperparameters are the same
    and each of their parameters went through the body. *)
Definition groups_advanced (grs grs' : list Group) : Prop :=
  Forall2 (fun h h' => Forall2 advanced (params h) (params h')
                       /\ h' = with_params h (params h')) grs grs'.

(** The sum of the contributions to a collective. *)
Definition Rsum (l : list R) : R := fold_right Rplus 0 l.

(** The parameter as the apply phase leaves it when it is run with the
    learning rate [lr_]. *)
Definition applied (scale : R) (g : Group) (p : Param) (gr : Grad) (lr_ : R)
  : Param :=
  let st := incr_step (state_of p) in
  let r := f_adam (fst (betas g)) (snd (betas g)) (eps g) scale
             (weight_decay g) (step_count st) lr_ st gr in
  {| p_data := snd r; p_grad := p_grad p; p_state := Some (fst r) |}.

(** The local partial sums of the prepare phase for parameter [p]. *)
Definition partial_sums (scale : R) (g : Group) (p : Param) (gr : Grad) : R * R :=
  let st := incr_step (state_of p) in
  f_lamb_prepare (fst (betas g)) (snd (betas g)) (eps g) scale
    (weight_decay g) (step_count st) st gr.


(** ** Observations on histories and on single parameters *)

Definition no_rescale (a : op) : Prop :=
  match a with
  | OpJustifyScale _ => False
  | _ => True
  end.

(** The number of [step] calls of a history that get past the overflow
    gate. *)
Fixpoint passed_gates (cfg : Config) (w : LambOptimizer * nat) (l : list op)
  : Z :=
  match l with
  | [] => 0%Z
  | a :: l' =>
      ((match a with
        | OpStep closure =>
            if (0 <? overflow_flag cfg closure (fst w) (snd w))%Z then 0 else 1
        | _ => 0
        end) + passed_gates cfg (run_op cfg w a) l')%Z
  end.

(** The number of updates a parameter has gone through: its ['step'], 0
    while its state is empty. *)
Definition steps_taken (p : Param) : Z :=
  match p_state p with
  | Some st => step_count st
  | None => 0%Z
  end.

(** What the update loop can do to a parameter, however it ends. *)
Definition param_moved (p p' : Param) : Prop :=
  p_grad p' = p_grad p
  /\ (steps_taken p <= steps_taken p' <= steps_taken p + 1)%Z.

Definition group_moved (g g' : Group) : Prop :=
  lr g' = lr g /\ betas g' = betas g /\ eps g' = eps g
  /\ weight_decay g' = weight_decay g
  /\ Forall2 param_moved (params g) (params g').

(** A gradient with an element the detector reports. *)
Definition bad_grad (p : Param) : bool :=
  match p_grad p with
  | Some g => existsb is_inf_nan (values g)
  | None => false
  end.

(** A justify_scale-invariant view of a group: everything but the two
    moments. *)
Definition unscaled (p : Param)
  : list R * option Grad * option (Z * list R) :=
  (p_data p, p_grad p,
   option_map (fun st => (step_count st, param_fp32 st)) (p_state p)).

Definition hyper (g : Group) : R * (R * R) * R * R :=
  (lr g, betas g, eps g, weight_decay g).

(** The two moments of a parameter, when its state is initialised. *)
Definition moments (p : Param) : option (list R * list R) :=
  option_map (fun st => (exp_avg st, exp_avg_sq st)) (p_state p).

(** Both moments with every element multiplied by [d]. *)
Definition times (d : R) (mv : list R * list R) : list R * list R :=
  (map (fun x => x * d) (fst mv), map (fun x => x * d) (snd mv)).



(** ** Concrete optimizers *)

Definition single_worker : Comm :=
  {| peers_u8 := fun _ => []; peers_f32 := fun _ => [] |}.

(** A group in which another worker reports an overflow. *)
Definition overflowing_peer : Comm :=
  {| peers_u8 := fun _ => [1%Z]; peers_f32 := fun _ => [] |}.

Definition with_comm : Config := {| comm := Some single_worker |}.
Definition without_comm : Config := {| comm := None |}.

Definition dense_param : Param :=
  {| p_data := [1]; p_grad := Some (mkGrad false [finite 2]); p_state := None |}.

Definition sparse_param : Param :=
  {| p_data := [1]; p_grad := Some (mkGrad true [finite 2]); p_state := None |}.

Definition overflow_param : Param :=
  {| p_data := [1]; p_grad := Some (mkGrad false [inf]); p_state := None |}.

Definition optimizer_of (ps : list Param) (hold : Z) : LambOptimizer :=
  {| param_groups :=
       [ {| params := ps; lr := 1e-3; betas := (0.9, 0.999); eps := 1e-8;
            weight_decay := 0 |} ];
     _scale := 65536;
     _steps_since_last_scale := 0;
     _hold_steps := hold |}.

(** A parameter four steps into training, and an optimizer holding it. *)
Definition warm_param : Param :=
  {| p_data := [1];
     p_grad := None;
     p_state := Some {| step_count := 4; exp_avg := [3]; exp_avg_sq := [5];
                        param_fp32 := [1] |} |}.

Definition warm_optimizer : LambOptimizer :=
  {| param_groups :=
       [ {| params := [warm_param; dense_param]; lr := 1e-3;
            betas := (0.9, 0.999); eps := 1e-8; weight_decay := 0 |} ];
     _scale := 65536;
     _steps_since_last_scale := 7;
     _hold_steps := 0 |}.

(** A closure with loss 7 that leaves an infinite gradient on the first
    parameter. *)
Definition overflowing_closure : Closure :=
  fun _ => (7, [[Some (mkGrad false [inf])]]).

(** * Properties *)

(** ** The scheduler *)

(** C9: the NoDecay learning rate is a function of the iteration count alone:
    below [warmup_iter] it is the linear ramp
    [start_lr * num_iter / warmup_iter], which is 0 at iteration 0 and reaches
    [start_lr] at [warmup_iter]; from [warmup_iter] on it is constantly
    [start_lr]. *)
Theorem no_decay_lr (self : NoDecay.t) (n : Z) :
  (0 <= n)%Z ->
  ((n < NoDecay.warmup_iter self)%Z ->
     NoDecay.effective_lr self n
     = Returned (NoDecay.start_lr self * IZR n / IZR (NoDecay.warmup_iter self))
     /\ NoDecay.get_lr_warmpup self 0 = Returned 0
     /\ NoDecay.get_lr_warmpup self (NoDecay.warmup_iter self)
        = Returned (NoDecay.start_lr self))
  /\ ((NoDecay.warmup_iter self <= n)%Z ->
        NoDecay.effective_lr self n = Returned (NoDecay.start_lr self))
  /\ NoDecay.get_lr_decay self n = Returned (NoDecay.start_lr self).
Proof.
  intros Hn.
  unfold NoDecay.effective_lr, NoDecay.get_lr_warmpup, NoDecay.get_lr_decay.
  split; [intros Hlt | split; [intros Hle | reflexivity]].
  - apply Z.ltb_lt in Hlt as Hb. rewrite Hb.
    destruct (Z.eqb_spec (NoDecay.warmup_iter self) 0) as [E|E]; [lia|].
    split; [reflexivity | split; f_equal].
    + unfold Rdiv. rewrite Rmult_0_r, Rmult_0_l. reflexivity.
    + field. apply not_0_IZR. exact E.
  - apply Z.ltb_ge in Hle. rewrite Hle. reflexivity.
Qed.

Lemma no_decay_lr_witness :
  NoDecay.effective_lr (NoDecay.mk 1e-3 10) 4 = Returned (1e-3 * 4 / 10)
  /\ NoDecay.effective_lr (NoDecay.mk 1e-3 10) 10 = Returned 1e-3.
Proof.
  split.
  - apply (no_decay_lr (NoDecay.mk 1e-3 10) 4); simpl; lia.
  - apply (no_decay_lr (NoDecay.mk 1e-3 10) 10); simpl; lia.
Defined.

(** ** The loss scale *)

Lemma map_scale_inverse (d1 d2 : R) (l : list R) :
  d1 * d2 = 1 -> map (fun x => x * d2) (map (fun x => x * d1) l) = l.
Proof.
  intros H. rewrite map_map. rewrite <- (map_id l) at 2.
  apply map_ext. intros x. rewrite Rmult_assoc, H. apply Rmult_1_r.
Qed.

Lemma rescale_param_inverse (d1 d2 : R) (p : Param) :
  d1 * d2 = 1 -> rescale_param d2 (rescale_param d1 p) = p.
Proof.
  intros H. destruct p as [w g [[t m v x]|]]; unfold rescale_param; simpl;
    [|reflexivity].
  unfold scale_moments; simpl. now rewrite !map_scale_inverse.
Qed.

Lemma rescale_group_inverse (d1 d2 : R) (g : Group) :
  d1 * d2 = 1 -> rescale_group d2 (rescale_group d1 g) = g.
Proof.
  intros H. destruct g as [ps l b e w]. unfold rescale_group; simpl. f_equal.
  rewrite map_map. rewrite <- (map_id ps) at 2.
  apply map_ext. intros p. now apply rescale_param_inverse.
Qed.

Lemma states_rescale (delta : R) (grs : list Group) :
  states (map (rescale_group delta) grs)
  = map (map (option_map (scale_moments delta))) (states grs).
Proof.
  unfold states. rewrite !map_map. apply map_ext. intros g. simpl.
  rewrite !map_map. apply map_ext. intros p.
  unfold rescale_param. destruct (p_state p) eqn:E; simpl; [reflexivity | exact E].
Qed.

Lemma justify_scale_ok (s : R) (o : LambOptimizer) :
  _scale o <> 0 ->
  justify_scale s o
  = (Returned tt,
     {| param_groups := map (rescale_group (s / _scale o)) (param_groups o);
        _scale := s;
        _steps_since_last_scale := 0;
        _hold_steps := _hold_steps o |}).
Proof.
  intros H. unfold justify_scale. now destruct (Req_dec_T (_scale o) 0).
Qed.

Lemma justify_scale_zero (s : R) (o : LambOptimizer) :
  _scale o = 0 -> justify_scale s o = (Raised ZeroDivisionError, o).
Proof.
  intros H. unfold justify_scale. now destruct (Req_dec_T (_scale o) 0).
Qed.

Lemma moments_rescale (delta : R) (g : Group) :
  map moments (params (rescale_group delta g))
  = map (fun p => option_map (times delta) (moments p)) (params g).
Proof.
  simpl. rewrite map_map. apply map_ext. intros p.
  unfold rescale_param, moments. destruct (p_state p) as [st|] eqn:E; simpl.
  - reflexivity.
  - now rewrite E.
Qed.

Lemma moments_rescale_groups (delta : R) (grs : list Group) :
  map (fun g => map moments (params g)) (map (rescale_group delta) grs)
  = map (fun g => map (fun p => option_map (times delta) (moments p)) (params g))
        grs.
Proof. rewrite map_map. apply map_ext. intros g. apply moments_rescale. Qed.

(** C5: from a nonzero scale (the divisor of [new / old]), [justify_scale]
    returns normally, sets the scale to the new value, multiplies every
    element of the momentum and of the variance of every initialised
    parameter by [new / old] (and leaves empty states empty) and resets
    [steps_since_last_scale] to 0; in particular rescaling to [k * factor]
    multiplies them by [k]; and for every optimizer and every [k <> 0],
    rescaling to [k * factor] and then back to [factor] leaves every
    parameter state (momentum and variance included) and the scale as they
    were before. *)
Theorem justify_scale_round_trip (o : LambOptimizer) (new k : R) :
  k <> 0 ->
  let o1 := snd (justify_scale new o) in
  let o2 := snd (justify_scale (k * _scale o) o) in
  let o3 := snd (justify_scale (_scale o) o2) in
  (_scale o <> 0 ->
   fst (justify_scale new o) = Returned tt
   /\ _scale o1 = new
   /\ map (fun g => map moments (params g)) (param_groups o1)
      = map (fun g => map (fun p => option_map (times (new / _scale o))
                                      (moments p)) (params g))
            (param_groups o)
   /\ map (fun g => map moments (params g)) (param_groups o2)
      = map (fun g => map (fun p => option_map (times k) (moments p)) (params g))
            (param_groups o)
   /\ states (param_groups o1)
      = map (map (option_map (scale_moments (new / _scale o))))
            (states (param_groups o))
   /\ _steps_since_last_scale o1 = 0%Z
   /\ fst (justify_scale (k * _scale o) o) = Returned tt
   /\ fst (justify_scale (_scale o) o2) = Returned tt)
  /\ param_groups o3 = param_groups o
  /\ states (param_groups o3) = states (param_groups o)
  /\ _scale o3 = _scale o.
Proof.
  intros Hk o1 o2 o3. subst o1 o2 o3.
  destruct (Req_dec_T (_scale o) 0) as [Hz|Hs].
  - split; [intros Hs; contradiction|].
    rewrite (justify_scale_zero (k * _scale o) o Hz). simpl.
    rewrite (justify_scale_zero (_scale o) o Hz). simpl. auto.
  - assert (Hks : k * _scale o <> 0)
      by (apply Rmult_integral_contrapositive; auto).
    rewrite (justify_scale_ok new o Hs), (justify_scale_ok (k * _scale o) o Hs).
    simpl. rewrite justify_scale_ok by (simpl; exact Hks). simpl.
    assert (Hg : map (rescale_group (_scale o / (k * _scale o)))
                   (map (rescale_group (k * _scale o / _scale o)) (param_groups o))
                 = param_groups o).
    { rewrite map_map. rewrite <- (map_id (param_groups o)) at 2.
      apply map_ext. intros g. apply rescale_group_inverse. now field. }
    rewrite Hg. rewrite !moments_rescale_groups.
    replace (k * _scale o / _scale o) with k by now field.
    repeat split; auto using states_rescale.
Qed.

Lemma justify_scale_round_trip_witness :
  (fst (justify_scale 131072 warm_optimizer) = Returned tt
   /\ _scale (snd (justify_scale 131072 warm_optimizer)) = 131072
   /\ map (fun g => map moments (params g))
          (param_groups (snd (justify_scale 131072 warm_optimizer)))
      = [[Some ([6], [10]); None]]
   /\ _steps_since_last_scale (snd (justify_scale 131072 warm_optimizer)) = 0%Z)
  /\ map (fun g => map moments (params g))
         (param_groups (snd (justify_scale (3 * 65536) warm_optimizer)))
     = [[Some ([9], [15]); None]]
  /\ param_groups
       (snd (justify_scale 65536
               (snd (justify_scale (3 * 65536) warm_optimizer))))
     = param_groups warm_optimizer.
Proof.
  assert (H3 : 3 <> 0) by lra.
  assert (Hs : _scale warm_optimizer <> 0) by (simpl; lra).
  pose proof (justify_scale_round_trip warm_optimizer 131072 3 H3) as [T1 T2].
  cbv zeta in T1, T2.
  destruct (T1 Hs) as (Hr & Hsc & Hm1 & Hm2 & _ & Hc & _).
  split; [|split; [|apply T2]].
  - repeat split; try assumption.
    rewrite Hm1. simpl. unfold times. simpl.
    replace (3 * (131072 / 65536)) with 6 by lra.
    replace (5 * (131072 / 65536)) with 10 by lra.
    reflexivity.
  - simpl in Hm2. rewrite Hm2. unfold times. simpl.
    replace (3 * 3) with 9 by lra. replace (5 * 3) with 15 by lra.
    reflexivity.
Defined.

(** ** The step: what the closure and the overflow gate do *)

Lemma set_grads_params_frame (ps : list Param) (gs : list (option Grad)) :
  map p_state (set_grads_params ps gs) = map p_state ps
  /\ map p_data (set_grads_params ps gs) = map p_data ps.
Proof.
  revert gs. induction ps as [|p ps IH]; intros [|g gs]; simpl; auto.
  destruct (IH gs) as [H1 H2]. now rewrite H1, H2.
Qed.

Lemma set_grads_frame (grs : list Group) (gss : list (list (option Grad))) :
  states (set_grads grs gss) = states grs
  /\ workings (set_grads grs gss) = workings grs.
Proof.
  revert gss. induction grs as [|g grs IH]; intros [|gs gss]; simpl; auto.
  destruct (IH gss) as [H1 H2].
  destruct (set_grads_params_frame (params g) gs) as [H3 H4].
  unfold states, workings in *. simpl. now rewrite H1, H2, H3, H4.
Qed.

Lemma run_closure_frame (closure : option Closure) (o : LambOptimizer) :
  let o1 := snd (run_closure closure o) in
  states (param_groups o1) = states (param_groups o)
  /\ workings (param_groups o1) = workings (param_groups o)
  /\ _scale o1 = _scale o
  /\ _steps_since_last_scale o1 = _steps_since_last_scale o
  /\ _hold_steps o1 = _hold_steps o.
Proof.
  destruct closure as [c|]; simpl; [|tauto].
  destruct (c (param_groups o)) as [l gss]. simpl.
  destruct (set_grads_frame (param_groups o) gss). tauto.
Qed.

Lemma step_overflow (cfg : Config) (closure : option Closure)
  (o : LambOptimizer) (seq : nat) :
  (0 < overflow_flag cfg closure o seq)%Z ->
  outcome (step cfg closure o seq) = Raised OverflowError
  /\ final (step cfg closure o seq) = snd (run_closure closure o).
Proof.
  unfold overflow_flag, step, outcome, final. intros H.
  destruct (run_closure closure o) as [loss o1]. simpl in *.
  destruct (reduce_flag cfg seq (has_inf_or_nan (param_groups o1))) as [fl s1].
  simpl in *. apply Z.ltb_lt in H. rewrite H. auto.
Qed.

Lemma step_clear (cfg : Config) (closure : option Closure)
  (o : LambOptimizer) (seq : nat) :
  (overflow_flag cfg closure o seq <= 0)%Z ->
  let o2 := tick (snd (run_closure closure o)) in
  let u := update_groups cfg (_scale o2) (_hold_steps o2) (param_groups o2)
             (snd (reduce_flag cfg seq (has_inf_or_nan (param_groups o2)))) in
  outcome (step cfg closure o seq)
  = match outcome u with
    | Returned _ => Returned (fst (run_closure closure o))
    | Raised e => Raised e
    end
  /\ final (step cfg closure o seq) = with_groups o2 (final u).
Proof.
  unfold overflow_flag, step, outcome, final. intros H.
  destruct (run_closure closure o) as [loss o1]. simpl in *.
  destruct (reduce_flag cfg seq (has_inf_or_nan (param_groups o1))) as [fl s1].
  simpl in *. apply Z.ltb_ge in H. rewrite H.
  destruct (update_groups cfg (_scale o1) (_hold_steps o1) (param_groups o1) s1)
    as [[[u|e] grs] s2]; auto.
Qed.

(** C1: when the overflow flag [step] tests is nonzero, the call raises
    [OverflowError] and leaves the optimizer as the closure left it: no
    parameter state (step count, master copy, momentum, variance), no working
    copy, and neither [steps_since_last_scale] nor the scale has changed;
    without a closure the optimizer is the one the call started from. *)
Theorem overflow_aborts_without_mutation (cfg : Config)
  (closure : option Closure) (o : LambOptimizer) (seq : nat) :
  (0 < overflow_flag cfg closure o seq)%Z ->
  let o' := final (step cfg closure o seq) in
  outcome (step cfg closure o seq) = Raised OverflowError
  /\ states (param_groups o') = states (param_groups o)
  /\ workings (param_groups o') = workings (param_groups o)
  /\ _steps_since_last_scale o' = _steps_since_last_scale o
  /\ _scale o' = _scale o
  /\ (closure = None -> o' = o).
Proof.
  intros H o'. subst o'.
  destruct (step_overflow cfg closure o seq H) as [Hr Hf]. rewrite Hr, Hf.
  pose proof (run_closure_frame closure o) as F. simpl in F.
  repeat split; try tauto.
  intros ->. reflexivity.
Qed.

Lemma overflow_aborts_without_mutation_witness :
  (outcome (step with_comm None (optimizer_of [overflow_param] 0) 0)
   = Raised OverflowError
   /\ final (step with_comm None (optimizer_of [overflow_param] 0) 0)
      = optimizer_of [overflow_param] 0)
  /\ (outcome (step {| comm := Some overflowing_peer |} None
                 (optimizer_of [dense_param] 0) 0)
      = Raised OverflowError
      /\ final (step {| comm := Some overflowing_peer |} None
                  (optimizer_of [dense_param] 0) 0)
         = optimizer_of [dense_param] 0).
Proof.
  assert (H : (0 < overflow_flag with_comm None
                     (optimizer_of [overflow_param] 0) 0)%Z) by reflexivity.
  assert (H' : (0 < overflow_flag {| comm := Some overflowing_peer |} None
                      (optimizer_of [dense_param] 0) 0)%Z) by reflexivity.
  pose proof (overflow_aborts_without_mutation with_comm None
                (optimizer_of [overflow_param] 0) 0 H) as T.
  pose proof (overflow_aborts_without_mutation
                {| comm := Some overflowing_peer |} None
                (optimizer_of [dense_param] 0) 0 H') as T'.
  cbv zeta in T, T'.
  split; (split; [apply T || apply T' | apply T || apply T'; reflexivity]).
Defined.

(** ** The detector *)

Lemma f_has_inf_nan_clear (g : Grad) (fl : Z) :
  (f_has_inf_nan g fl <= 0)%Z ->
  (fl <= 0)%Z /\ existsb is_inf_nan (values g) = false.
Proof.
  unfold f_has_inf_nan. destruct (existsb is_inf_nan (values g)); [lia|auto].
Qed.

Lemma scan_params_clear (ps : list Param) (fl : Z) :
  (scan_params ps fl <= 0)%Z -> (fl <= 0)%Z /\ finite_grads ps.
Proof.
  unfold scan_params, finite_grads. revert fl.
  induction ps as [|p ps IH]; intros fl H; simpl in *; [auto|].
  apply IH in H. destruct H as [H Hf].
  destruct (p_grad p) as [g|] eqn:Eg.
  - apply f_has_inf_nan_clear in H. destruct H as [H Hg].
    split; [exact H|]. constructor; [|exact Hf].
    intros g' E. rewrite Eg in E. inversion E; subst. exact Hg.
  - split; [exact H|]. constructor; [|exact Hf].
    intros g' E. rewrite Eg in E. discriminate E.
Qed.

Lemma has_inf_or_nan_clear (grs : list Group) :
  (has_inf_or_nan grs <= 0)%Z -> finite_grads (all_params grs).
Proof.
  unfold has_inf_or_nan.
  assert (G : forall fl,
             (fold_left (fun fl g => scan_params (params g) fl) grs fl <= 0)%Z ->
             (fl <= 0)%Z /\ finite_grads (all_params grs)).
  { induction grs as [|g grs IH]; intros fl H; simpl in *.
    - split; [exact H | constructor].
    - apply IH in H. destruct H as [H Hf].
      apply scan_params_clear in H. destruct H as [H Hg].
      split; [exact H|]. unfold finite_grads in *. apply Forall_app. auto. }
  intros H. now apply G in H.
Qed.

Lemma allReduce_max_ge (c : Comm) (seq : nat) (x : Z) :
  (x <= allReduce_max c seq x)%Z.
Proof.
  unfold allReduce_max. generalize (peers_u8 c seq) as l. intros l. revert x.
  induction l as [|y l IH]; intros x; simpl; [lia|].
  specialize (IH (Z.max x y)). lia.
Qed.

(** A step that gets past the gate has only finite gradient elements to work
    on, whether or not the flag was reduced over a group. *)
Lemma gate_passed_finite (cfg : Config) (closure : option Closure)
  (o : LambOptimizer) (seq : nat) :
  (overflow_flag cfg closure o seq <= 0)%Z ->
  finite_grads (all_params (param_groups (snd (run_closure closure o)))).
Proof.
  unfold overflow_flag, reduce_flag. intros H. apply has_inf_or_nan_clear.
  destruct (comm cfg) as [c|]; simpl in H; [|exact H].
  pose proof (allReduce_max_ge c seq
                (has_inf_or_nan (param_groups (snd (run_closure closure o))))).
  lia.
Qed.

(** ** The step: how the update loop can end *)

Lemma update_param_outcome cfg scale hold g p seq :
  loop_outcome (outcome (update_param cfg scale hold g p seq)).
Proof.
  unfold update_param, outcome.
  destruct (p_grad p) as [gr|]; simpl; auto.
  destruct (is_sparse gr); simpl; auto.
  destruct (comm cfg); simpl; auto.
Qed.

Lemma update_params_outcome cfg scale hold g ps seq :
  loop_outcome (outcome (update_params cfg scale hold g ps seq)).
Proof.
  revert seq. induction ps as [|p ps IH]; intros seq; simpl; auto.
  pose proof (update_param_outcome cfg scale hold g p seq) as H.
  unfold outcome in *.
  destruct (update_param cfg scale hold g p seq) as [[[u|e] p'] s']; simpl in *; auto.
  specialize (IH s').
  destruct (update_params cfg scale hold g ps s') as [[r ps'] s'']; auto.
Qed.

Lemma update_groups_outcome cfg scale hold grs seq :
  loop_outcome (outcome (update_groups cfg scale hold grs seq)).
Proof.
  revert seq. induction grs as [|g grs IH]; intros seq; simpl; auto.
  pose proof (update_params_outcome cfg scale hold g (params g) seq) as H.
  unfold outcome in *.
  destruct (update_params cfg scale hold g (params g) seq) as [[[u|e] ps'] s'];
    simpl in *; auto.
  specialize (IH s').
  destruct (update_groups cfg scale hold grs s') as [[r grs'] s'']; auto.
Qed.

(** C4, as the code has it: the closure is evaluated first; a call that
    completes returns the closure's loss ([None] without a closure); a call
    whose overflow flag is set raises [OverflowError], and only such a call
    does; the only other ways out are the [RuntimeError] and the [KeyError]
    of the update loop.  An exception carries no loss. *)
Theorem step_outcomes (cfg : Config) (closure : option Closure)
  (o : LambOptimizer) (seq : nat) :
  let r := outcome (step cfg closure o seq) in
  let loss := fst (run_closure closure o) in
  (r = Returned loss \/ r = Raised OverflowError
   \/ r = Raised RuntimeError \/ r = Raised KeyError)
  /\ ((0 < overflow_flag cfg closure o seq)%Z <-> r = Raised OverflowError)
  /\ (forall l, returned r = Some l -> l = loss)
  /\ (closure = None -> loss = None)
  /\ (forall c, closure = Some c -> loss = Some (fst (c (param_groups o)))).
Proof.
  intros r loss. subst r loss.
  assert (Hloss : (closure = None -> fst (run_closure closure o) = None)
                  /\ (forall c, closure = Some c ->
                        fst (run_closure closure o)
                        = Some (fst (c (param_groups o))))).
  { split; [intros ->; reflexivity | intros c ->; simpl].
    now destruct (c (param_groups o)). }
  destruct (Z.lt_ge_cases 0 (overflow_flag cfg closure o seq)) as [H|H].
  - destruct (step_overflow cfg closure o seq H) as [Hr _]. rewrite Hr.
    repeat split; try tauto; try (intros; discriminate).
  - destruct (step_clear cfg closure o seq H) as [Hr _]. rewrite Hr.
    match goal with |- context [outcome ?u] =>
      pose proof (update_groups_outcome cfg
                    (_scale (tick (snd (run_closure closure o))))
                    (_hold_steps (tick (snd (run_closure closure o))))
                    (param_groups (tick (snd (run_closure closure o))))
                    (snd (reduce_flag cfg seq
                            (has_inf_or_nan
                               (param_groups (tick (snd (run_closure closure o))))))))
        as L
    end.
    destruct (outcome (update_groups _ _ _ _ _)) as [u|e]; simpl in L.
    + repeat split; try tauto; try (intros; lia); try (intros; discriminate).
      simpl. intros l E. now inversion E.
    + repeat split; try tauto; try (intros; lia); try (intros; discriminate).
      * destruct L as [-> | ->]; auto.
      * destruct L as [-> | ->]; intros; discriminate.
Qed.

(** C4 as stated fails: with a closure whose loss is 7 and whose gradient
    overflows, the call raises [OverflowError] and returns nothing, so the
    closure's result is not the value of the call. *)
Lemma step_overflow_drops_loss :
  fst (run_closure (Some overflowing_closure) (optimizer_of [dense_param] 0))
  = Some 7
  /\ outcome (step with_comm (Some overflowing_closure)
                (optimizer_of [dense_param] 0) 0)
     = Raised OverflowError
  /\ returned (outcome (step with_comm (Some overflowing_closure)
                          (optimizer_of [dense_param] 0) 0))
     <> Some (Some 7).
Proof.
  repeat split; try reflexivity. simpl. discriminate.
Qed.

(** ** [steps_since_last_scale] *)

(** C6, as the code has it: [steps_since_last_scale] is incremented exactly
    once by every call that passes the overflow gate, before the update loop
    and whatever the loop's outcome is, and is left alone by a call the gate
    aborts. *)
Theorem steps_since_last_scale_counts_passed_gates (cfg : Config)
  (closure : option Closure) (o : LambOptimizer) (seq : nat) :
  _steps_since_last_scale (final (step cfg closure o seq))
  = if (0 <? overflow_flag cfg closure o seq)%Z
    then _steps_since_last_scale o
    else (_steps_since_last_scale o + 1)%Z.
Proof.
  pose proof (run_closure_frame closure o) as F. simpl in F.
  destruct (Z.ltb_spec 0 (overflow_flag cfg closure o seq)) as [H|H].
  - destruct (step_overflow cfg closure o seq H) as [_ Hf]. rewrite Hf. tauto.
  - destruct (step_clear cfg closure o seq H) as [_ Hf]. rewrite Hf. simpl.
    f_equal. tauto.
Qed.

(** C6 as stated fails: a step that fails in the update loop on a sparse
    gradient has already incremented [steps_since_last_scale]. *)
Lemma failed_update_is_counted :
  outcome (step with_comm None (optimizer_of [sparse_param] 0) 0)
  = Raised RuntimeError
  /\ _steps_since_last_scale
       (final (step with_comm None (optimizer_of [sparse_param] 0) 0))
     <> _steps_since_last_scale (optimizer_of [sparse_param] 0).
Proof.
  split; [reflexivity | simpl; discriminate].
Qed.

(** ** The scale factor *)

Lemma init_scale ps lr_ betas_ eps_ wd scale hold o :
  __init__ ps lr_ betas_ eps_ wd scale hold = Returned o -> _scale o = scale.
Proof.
  unfold __init__.
  repeat match goal with
         | |- context [Rle_dec ?a ?b] =>
             destruct (Rle_dec a b); try (intros E; discriminate E)
         | |- context [Rlt_dec ?a ?b] =>
             destruct (Rlt_dec a b); try (intros E; discriminate E)
         end.
  destruct ps; intros E; [discriminate E|]. inversion E. reflexivity.
Qed.

Lemma step_scale cfg closure o seq :
  _scale (final (step cfg closure o seq)) = _scale o.
Proof.
  pose proof (run_closure_frame closure o) as F. simpl in F.
  destruct (Z.lt_ge_cases 0 (overflow_flag cfg closure o seq)) as [H|H].
  - destruct (step_overflow cfg closure o seq H) as [_ Hf]. rewrite Hf. tauto.
  - destruct (step_clear cfg closure o seq H) as [_ Hf]. rewrite Hf. simpl. tauto.
Qed.

Lemma justify_scale_positive s o :
  0 < s -> 0 < _scale o -> 0 < _scale (snd (justify_scale s o)).
Proof.
  intros Hs Ho. unfold justify_scale.
  destruct (Req_dec_T (_scale o) 0); simpl; assumption.
Qed.

Lemma run_op_positive cfg w a :
  positive_rescale a -> 0 < _scale (fst w) -> 0 < _scale (fst (run_op cfg w a)).
Proof.
  intros Ha Hw. destruct a as [gss|closure|s]; simpl in *.
  - assumption.
  - pose proof (step_scale cfg closure (fst w) (snd w)) as E.
    unfold final in E.
    destruct (step cfg closure (fst w) (snd w)) as [[r o'] s']. simpl in *.
    now rewrite E.
  - now apply justify_scale_positive.
Qed.

(** C7, as the code has it: [__init__] and [justify_scale] store the scale
    they are given without a range check, and [step] never writes it; so the
    scale is strictly positive after a construction with a strictly positive
    [scale] followed by any history of backward passes, steps and rescalings
    to strictly positive factors. *)
Theorem scale_positive_when_callers_keep_it (cfg : Config) (ps : list Param)
  (lr_ : R) (betas_ : R * R) (eps_ wd scale : R) (hold : Z)
  (o : LambOptimizer) (seq : nat) (history : list op) :
  __init__ ps lr_ betas_ eps_ wd scale hold = Returned o ->
  0 < scale ->
  Forall positive_rescale history ->
  0 < _scale (fst (run_ops cfg (o, seq) history)).
Proof.
  intros Hi Hs Hh. apply init_scale in Hi. rewrite <- Hi in Hs. clear Hi.
  unfold run_ops. generalize (o, seq) as w, (Hs : 0 < _scale (fst (o, seq))).
  clear Hs. induction Hh as [|a l Ha Hl IH]; intros w Hw; simpl; auto.
  apply IH. now apply run_op_positive.
Qed.

Lemma init_accepts (ps : list Param) (scale : R) (hold : Z) :
  ps <> [] ->
  exists o, __init__ ps 1e-3 (0.9, 0.999) 1e-8 0 scale hold = Returned o
            /\ _scale o = scale.
Proof.
  intros Hps. unfold __init__. simpl.
  repeat match goal with
         | |- context [Rle_dec ?a ?b] => destruct (Rle_dec a b); [|exfalso; lra]
         | |- context [Rlt_dec ?a ?b] => destruct (Rlt_dec a b); [|exfalso; lra]
         end.
  destruct ps; [contradiction|]. eexists. split; reflexivity.
Qed.

Lemma scale_positive_when_callers_keep_it_witness :
  exists o,
    __init__ [dense_param] 1e-3 (0.9, 0.999) 1e-8 0 65536 0 = Returned o
    /\ 0 < _scale (fst (run_ops with_comm (o, 0%nat)
                          [OpStep None; OpJustifyScale 32768; OpStep None])).
Proof.
  destruct (init_accepts [dense_param] 65536 0) as [o [Hi Hs]]; [discriminate|].
  exists o. split; [exact Hi|].
  apply (scale_positive_when_callers_keep_it with_comm [dense_param] 1e-3
           (0.9, 0.999) 1e-8 0 65536 0 o 0 _ Hi).
  - lra.
  - repeat constructor. simpl. lra.
Defined.

(** C7 as stated fails: the constructor accepts a negative scale, and the
    optimizer it returns has that scale. *)
Lemma negative_scale_accepted :
  exists o,
    __init__ [dense_param] 1e-3 (0.9, 0.999) 1e-8 0 (-1) 0 = Returned o
    /\ ~ 0 < _scale o.
Proof.
  destruct (init_accepts [dense_param] (-1) 0) as [o [Hi Hs]]; [discriminate|].
  exists o. split; [exact Hi | rewrite Hs; lra].
Qed.

(** ** The update loop, one parameter at a time *)

Section LoopBody.
Variables (cfg : Config) (scale : R) (hold : Z) (g : Group).

Lemma update_param_no_grad p seq :
  p_grad p = None -> update_param cfg scale hold g p seq = (Returned tt, p, seq).
Proof. unfold update_param. now intros ->. Qed.

Lemma update_param_sparse p gr seq :
  p_grad p = Some gr -> is_sparse gr = true ->
  update_param cfg scale hold g p seq = (Raised RuntimeError, p, seq).
Proof.
  unfold update_param. intros E1 E2. rewrite E1. cbv beta iota.
  now rewrite E2.
Qed.

Lemma update_param_no_comm p gr seq :
  p_grad p = Some gr -> is_sparse gr = false -> comm cfg = None ->
  update_param cfg scale hold g p seq
  = (Raised KeyError,
     {| p_data := p_data p; p_grad := p_grad p;
        p_state := Some (incr_step (state_of p)) |},
     seq).
Proof.
  unfold update_param. intros E1 E2 E3. rewrite E1. cbv beta iota.
  rewrite E2, E3. reflexivity.
Qed.

Lemma update_param_dense p gr c seq :
  p_grad p = Some gr -> is_sparse gr = false -> comm cfg = Some c ->
  update_param cfg scale hold g p seq
  = (Returned tt,
     applied scale g p gr
       (trust_lr (candidate_lr hold g (incr_step (state_of p)))
          (allReduce_sum c seq (fst (partial_sums scale g p gr)))
          (allReduce_sum c (S seq) (snd (partial_sums scale g p gr)))),
     S (S seq)).
Proof.
  unfold update_param, applied, partial_sums. intros E1 E2 E3.
  rewrite E1. cbv beta iota. rewrite E2, E3. reflexivity.
Qed.

(** What a normal end of the body tells about the parameter. *)
Lemma update_param_returned p seq u p' seq' :
  update_param cfg scale hold g p seq = (Returned u, p', seq') ->
  (p_grad p = None /\ p' = p /\ seq' = seq)
  \/ (exists gr c,
        p_grad p = Some gr /\ is_sparse gr = false /\ comm cfg = Some c
        /\ p' = applied scale g p gr
                  (trust_lr (candidate_lr hold g (incr_step (state_of p)))
                     (allReduce_sum c seq (fst (partial_sums scale g p gr)))
                     (allReduce_sum c (S seq) (snd (partial_sums scale g p gr))))
        /\ seq' = S (S seq)).
Proof.
  destruct (p_grad p) as [gr|] eqn:Eg.
  - destruct (is_sparse gr) eqn:Es.
    + rewrite (update_param_sparse p gr seq Eg Es). discriminate.
    + destruct (comm cfg) as [c|] eqn:Ec.
      * rewrite (update_param_dense p gr c seq Eg Es Ec). intros E.
        inversion E; subst. right. exists gr, c. auto.
      * rewrite (update_param_no_comm p gr seq Eg Es Ec). discriminate.
  - rewrite (update_param_no_grad p seq Eg). intros E. inversion E. auto.
Qed.

Lemma update_param_advanced p seq u p' seq' :
  update_param cfg scale hold g p seq = (Returned u, p', seq') ->
  advanced p p' /\ seq' = (seq + 2 * count_grads [p])%nat.
Proof.
  intros E. apply update_param_returned in E.
  unfold advanced, count_grads, has_grad. simpl.
  destruct E as [(Eg & -> & ->) | (gr & c & Eg & Es & Ec & -> & ->)];
    rewrite Eg; simpl; split; auto; lia.
Qed.

(** The inner loop over a concatenation. *)
Lemma update_params_app pre rest seq :
  update_params cfg scale hold g (pre ++ rest) seq
  = match update_params cfg scale hold g pre seq with
    | (Returned _, pre', s') =>
        let '(r, rest', s'') := update_params cfg scale hold g rest s' in
        (r, pre' ++ rest', s'')
    | (Raised e, pre', s') => (Raised e, pre' ++ rest, s')
    end.
Proof.
  revert seq. induction pre as [|p pre IH]; intros seq; simpl.
  - now destruct (update_params cfg scale hold g rest seq) as [[r rest'] s''].
  - destruct (update_param cfg scale hold g p seq) as [[[u|e] p'] s1];
      [|reflexivity].
    rewrite IH.
    destruct (update_params cfg scale hold g pre s1) as [[[u1|e1] pre'] s2];
      [|reflexivity].
    now destruct (update_params cfg scale hold g rest s2) as [[r rest'] s3].
Qed.

Lemma update_params_returned ps seq u ps' seq' :
  update_params cfg scale hold g ps seq = (Returned u, ps', seq') ->
  Forall2 advanced ps ps' /\ seq' = (seq + 2 * count_grads ps)%nat.
Proof.
  revert seq ps' seq'. induction ps as [|p ps IH]; intros seq ps' seq'; simpl.
  - intros E. inversion E. split; [constructor | unfold count_grads; simpl; lia].
  - destruct (update_param cfg scale hold g p seq) as [[[u1|e] p'] s1] eqn:Ep;
      [|discriminate].
    destruct (update_params cfg scale hold g ps s1) as [[r ps1] s2] eqn:Eps.
    intros E. inversion E; subst.
    apply update_param_advanced in Ep. destruct Ep as [Ha ->].
    apply IH in Eps. destruct Eps as [Hf ->].
    split; [now constructor|].
    unfold count_grads in *. simpl. destruct (has_grad p); simpl; lia.
Qed.
End LoopBody.

(** ** The update loop over lists of parameters and groups *)

Section Loops.
Variables (cfg : Config) (scale : R) (hold : Z).

Lemma with_params_same g : with_params g (params g) = g.
Proof. now destruct g. Qed.

(** Parameters without a gradient are skipped. *)
Lemma update_params_no_grads g ps seq :
  Forall (fun q => has_grad q = false) ps ->
  update_params cfg scale hold g ps seq = (Returned tt, ps, seq).
Proof.
  induction 1 as [|p ps Hp _ IH]; simpl; [reflexivity|].
  rewrite update_param_no_grad, IH; [reflexivity|].
  unfold has_grad in Hp. now destruct (p_grad p).
Qed.

Lemma update_groups_no_grads grs seq :
  Forall (fun q => has_grad q = false) (all_params grs) ->
  update_groups cfg scale hold grs seq = (Returned tt, grs, seq).
Proof.
  induction grs as [|g grs IH]; simpl; [reflexivity|].
  intros H. apply Forall_app in H. destruct H as [H1 H2].
  now rewrite update_params_no_grads, IH, with_params_same.
Qed.

(** With a communicator, a run of parameters none of which has a sparse
    gradient goes through. *)
Lemma update_params_dense c g ps seq :
  comm cfg = Some c ->
  Forall (fun q => sparse_grad q = false) ps ->
  exists ps',
    update_params cfg scale hold g ps seq
    = (Returned tt, ps', (seq + 2 * count_grads ps)%nat)
    /\ Forall2 advanced ps ps'.
Proof.
  intros Hc H. revert seq. induction H as [|p ps Hp _ IH]; intros seq.
  - exists []. simpl. split; [f_equal; unfold count_grads; simpl; lia | constructor].
  - assert (exists p' s1, update_param cfg scale hold g p seq = (Returned tt, p', s1))
      as (p' & s1 & Ep).
    { unfold sparse_grad in Hp. destruct (p_grad p) as [gr|] eqn:Eg.
      - rewrite (update_param_dense cfg scale hold g p gr c seq Eg Hp Hc). eauto.
      - rewrite (update_param_no_grad cfg scale hold g p seq Eg). eauto. }
    destruct (IH s1) as (ps' & Eps & Hf).
    exists (p' :: ps'). simpl. rewrite Ep, Eps.
    apply update_param_advanced in Ep. destruct Ep as [Ha ->].
    split; [|now constructor].
    f_equal. unfold count_grads. simpl. destruct (has_grad p); simpl; lia.
Qed.

Lemma update_groups_dense c grs seq :
  comm cfg = Some c ->
  Forall (fun q => sparse_grad q = false) (all_params grs) ->
  exists grs',
    update_groups cfg scale hold grs seq
    = (Returned tt, grs', (seq + 2 * count_grads (all_params grs))%nat)
    /\ groups_advanced grs grs'.
Proof.
  intros Hc. revert seq. induction grs as [|g grs IH]; intros seq H; simpl in *.
  - exists []. split; [f_equal; unfold count_grads; simpl; lia | constructor].
  - apply Forall_app in H. destruct H as [H1 H2].
    destruct (update_params_dense c g (params g) seq Hc H1) as (ps' & Eps & Hf).
    destruct (IH (seq + 2 * count_grads (params g))%nat H2) as (grs' & Eg & Hg).
    exists (with_params g ps' :: grs'). rewrite Eps, Eg. split.
    + f_equal. unfold count_grads. rewrite filter_app, length_app. lia.
    + constructor; [split; [exact Hf | reflexivity] | exact Hg].
Qed.

(** The outer loop over a concatenation. *)
Lemma update_groups_app pre rest seq :
  update_groups cfg scale hold (pre ++ rest) seq
  = match update_groups cfg scale hold pre seq with
    | (Returned _, pre', s') =>
        let '(r, rest', s'') := update_groups cfg scale hold rest s' in
        (r, pre' ++ rest', s'')
    | (Raised e, pre', s') => (Raised e, pre' ++ rest, s')
    end.
Proof.
  revert seq. induction pre as [|g pre IH]; intros seq; simpl.
  - now destruct (update_groups cfg scale hold rest seq) as [[r rest'] s''].
  - destruct (update_params cfg scale hold g (params g) seq) as [[[u|e] ps'] s1];
      [|reflexivity].
    rewrite IH.
    destruct (update_groups cfg scale hold pre s1) as [[[u1|e1] pre'] s2];
      [|reflexivity].
    now destruct (update_groups cfg scale hold rest s2) as [[r rest'] s3].
Qed.

Lemma update_groups_returned grs seq u grs' seq' :
  update_groups cfg scale hold grs seq = (Returned u, grs', seq') ->
  groups_advanced grs grs'
  /\ seq' = (seq + 2 * count_grads (all_params grs))%nat.
Proof.
  revert seq grs' seq'. induction grs as [|g grs IH]; intros seq grs' seq'; simpl.
  - intros E. inversion E. split; [constructor | unfold count_grads; simpl; lia].
  - destruct (update_params cfg scale hold g (params g) seq)
      as [[[u1|e] ps'] s1] eqn:Eps; [|discriminate].
    destruct (update_groups cfg scale hold grs s1) as [[r grs1] s2] eqn:Eg.
    intros E. inversion E; subst.
    apply update_params_returned in Eps. destruct Eps as [Hf ->].
    apply IH in Eg. destruct Eg as [Hg ->].
    split; [constructor; [split; [exact Hf | reflexivity] | exact Hg]|].
    unfold count_grads. rewrite filter_app, length_app. lia.
Qed.
End Loops.

(** ** Sparse gradients *)

(** C2, as the code has it: on a configuration with a communicator and with
    the overflow flag clear, a step in which some parameter has a sparse
    gradient raises [RuntimeError] at the first such parameter in iteration
    order; that parameter, the parameters after it and the groups after its
    group are left as they were, and the parameters before it have gone
    through the loop body: those with a gradient have their step advanced by
    one, those without are untouched. *)
Theorem sparse_gradient_aborts_at_first_sparse (cfg : Config) (c : Comm)
  (closure : option Closure) (o : LambOptimizer) (seq : nat)
  (gpre gpost : list Group) (g : Group) (pre post : list Param) (p : Param)
  (gr : Grad) :
  comm cfg = Some c ->
  (overflow_flag cfg closure o seq <= 0)%Z ->
  param_groups (snd (run_closure closure o)) = gpre ++ g :: gpost ->
  params g = pre ++ p :: post ->
  p_grad p = Some gr ->
  is_sparse gr = true ->
  Forall (fun q => sparse_grad q = false) (all_params gpre ++ pre) ->
  exists gpre' pre',
    outcome (step cfg closure o seq) = Raised RuntimeError
    /\ param_groups (final (step cfg closure o seq))
       = gpre' ++ with_params g (pre' ++ p :: post) :: gpost
    /\ groups_advanced gpre gpre'
    /\ Forall2 advanced pre pre'.
Proof.
  intros Hc Hfl Hgs Hps Hg Hsp Hd.
  apply Forall_app in Hd. destruct Hd as [Hd1 Hd2].
  destruct (step_clear cfg closure o seq Hfl) as [Hr Hf]. rewrite Hr, Hf.
  simpl. rewrite Hgs.
  set (o1 := snd (run_closure closure o)) in *.
  set (s1 := snd (reduce_flag cfg seq (has_inf_or_nan (gpre ++ g :: gpost)))).
  destruct (update_groups_dense cfg (_scale o1) (_hold_steps o1) c gpre s1 Hc Hd1)
    as (gpre' & Eg & Ha).
  destruct (update_params_dense cfg (_scale o1) (_hold_steps o1) c g pre
              (s1 + 2 * count_grads (all_params gpre))%nat Hc Hd2)
    as (pre' & Ep & Hb).
  exists gpre', pre'.
  rewrite update_groups_app, Eg. cbv beta iota. cbn [update_groups].
  rewrite Hps, update_params_app, Ep. cbv beta iota. cbn [update_params].
  rewrite (update_param_sparse cfg (_scale o1) (_hold_steps o1) g p gr _ Hg Hsp).
  unfold outcome, final. simpl. auto.
Qed.

Lemma sparse_gradient_aborts_at_first_sparse_witness :
  exists gpre' pre',
    outcome (step with_comm None (optimizer_of [dense_param; sparse_param] 0) 0)
    = Raised RuntimeError
    /\ param_groups
         (final (step with_comm None
                   (optimizer_of [dense_param; sparse_param] 0) 0))
       = gpre' ++ with_params
                    {| params := [dense_param; sparse_param]; lr := 1e-3;
                       betas := (0.9, 0.999); eps := 1e-8; weight_decay := 0 |}
                    (pre' ++ sparse_param :: []) :: []
    /\ groups_advanced [] gpre'
    /\ Forall2 advanced [dense_param] pre'.
Proof.
  apply (sparse_gradient_aborts_at_first_sparse with_comm single_worker None
           (optimizer_of [dense_param; sparse_param] 0) 0 [] []
           {| params := [dense_param; sparse_param]; lr := 1e-3;
              betas := (0.9, 0.999); eps := 1e-8; weight_decay := 0 |}
           [dense_param] [] sparse_param (mkGrad true [finite 2])).
  - reflexivity.
  - lazy. discriminate.
  - reflexivity.
  - reflexivity.
  - reflexivity.
  - reflexivity.
  - repeat constructor.
Defined.

(** C2 as stated fails: with a dense parameter before the sparse one, the
    step raises [RuntimeError] after the first parameter was advanced (its
    step is 1 and its state initialised) and the second was not. *)
Lemma sparse_gradient_leaves_partial_update :
  outcome (step with_comm None (optimizer_of [dense_param; sparse_param] 0) 0)
  = Raised RuntimeError
  /\ map (fun q => option_map step_count (p_state q))
         (all_params
            (param_groups
               (final (step with_comm None
                         (optimizer_of [dense_param; sparse_param] 0) 0))))
     = [Some 1%Z; None]
  /\ map (fun q => option_map step_count (p_state q))
         (all_params (param_groups (optimizer_of [dense_param; sparse_param] 0)))
     = [None; None].
Proof.
  repeat split; reflexivity.
Qed.

(** ** A configuration without ["comm"] *)

Lemma overflow_flag_local cfg closure o seq :
  comm cfg = None ->
  overflow_flag cfg closure o seq
  = has_inf_or_nan (param_groups (snd (run_closure closure o)))
  /\ snd (reduce_flag cfg seq
            (has_inf_or_nan (param_groups (snd (run_closure closure o))))) = seq.
Proof. unfold overflow_flag, reduce_flag. now intros ->. Qed.

(** C10, as the code has it: without ["comm"] in the configuration the
    overflow flag is the local one and no collective is performed; when that
    flag is clear and the first parameter with a gradient has a dense one, the
    update loop reaches the unguarded [config["comm"]] of line 120 and the
    step ends in [KeyError], with that parameter's state initialised and its
    step advanced and everything else but [steps_since_last_scale] as it
    was. *)
Theorem missing_comm_reaches_unguarded_lookup (cfg : Config)
  (closure : option Closure) (o : LambOptimizer) (seq : nat)
  (gpre gpost : list Group) (g : Group) (pre post : list Param) (p : Param)
  (gr : Grad) :
  comm cfg = None ->
  (overflow_flag cfg closure o seq <= 0)%Z ->
  param_groups (snd (run_closure closure o)) = gpre ++ g :: gpost ->
  params g = pre ++ p :: post ->
  p_grad p = Some gr ->
  is_sparse gr = false ->
  Forall (fun q => has_grad q = false) (all_params gpre ++ pre) ->
  overflow_flag cfg closure o seq
  = has_inf_or_nan (param_groups (snd (run_closure closure o)))
  /\ snd (step cfg closure o seq) = seq
  /\ outcome (step cfg closure o seq) = Raised KeyError
  /\ param_groups (final (step cfg closure o seq))
     = gpre
       ++ with_params g
            (pre ++ {| p_data := p_data p; p_grad := p_grad p;
                       p_state := Some (incr_step (state_of p)) |} :: post)
       :: gpost.
Proof.
  intros Hc Hfl Hgs Hps Hg Hsp Hn.
  apply Forall_app in Hn. destruct Hn as [Hn1 Hn2].
  destruct (overflow_flag_local cfg closure o seq Hc) as [Hl Hs].
  split; [exact Hl|].
  assert (E : step cfg closure o seq
              = (Raised KeyError,
                 with_groups (tick (snd (run_closure closure o)))
                   (gpre
                    ++ with_params g
                         (pre ++ {| p_data := p_data p; p_grad := p_grad p;
                                    p_state := Some (incr_step (state_of p)) |}
                              :: post)
                    :: gpost),
                 seq)).
  { unfold overflow_flag in Hfl. unfold step.
    destruct (run_closure closure o) as [loss o1]. simpl in *.
    destruct (reduce_flag cfg seq (has_inf_or_nan (param_groups o1))) as [fl s1].
    simpl in *. subst s1. apply Z.ltb_ge in Hfl. rewrite Hfl, Hgs.
    rewrite update_groups_app, (update_groups_no_grads _ _ _ _ _ Hn1).
    cbv beta iota. cbn [update_groups].
    rewrite Hps, update_params_app, (update_params_no_grads _ _ _ _ _ _ Hn2).
    cbv beta iota. cbn [update_params].
    rewrite (update_param_no_comm cfg _ _ g p gr seq Hg Hsp Hc). reflexivity. }
  rewrite E. unfold outcome, final. simpl. auto.
Qed.

Lemma missing_comm_reaches_unguarded_lookup_witness :
  outcome (step without_comm None (optimizer_of [dense_param] 0) 0)
  = Raised KeyError
  /\ snd (step without_comm None (optimizer_of [dense_param] 0) 0) = 0%nat.
Proof.
  pose proof (missing_comm_reaches_unguarded_lookup without_comm None
                (optimizer_of [dense_param] 0) 0 [] []
                {| params := [dense_param]; lr := 1e-3;
                   betas := (0.9, 0.999); eps := 1e-8; weight_decay := 0 |}
                [] [] dense_param (mkGrad false [finite 2])) as T.
  assert (Hfl : (overflow_flag without_comm None
                   (optimizer_of [dense_param] 0) 0 <= 0)%Z)
    by (lazy; discriminate).
  specialize (T eq_refl Hfl eq_refl eq_refl eq_refl eq_refl (Forall_nil _)).
  split; apply T.
Defined.

(** C10 as stated fails: on a configuration without ["comm"], a step whose
    only parameter has a gradient with an infinite element ends in
    [OverflowError] at the gate; the update loop and its [config["comm"]] are
    never reached. *)
Lemma missing_comm_overflow_stops_before_lookup :
  comm without_comm = None
  /\ count_grads (all_params (param_groups (optimizer_of [overflow_param] 0)))
     = 1%nat
  /\ outcome (step without_comm None (optimizer_of [overflow_param] 0) 0)
     = Raised OverflowError
  /\ outcome (step without_comm None (optimizer_of [overflow_param] 0) 0)
     <> Raised KeyError
  /\ final (step without_comm None (optimizer_of [overflow_param] 0) 0)
     = optimizer_of [overflow_param] 0.
Proof.
  repeat split; try reflexivity. simpl. discriminate.
Qed.

(** ** A parameter of a step that completes *)

Section Completed.
Variables (cfg : Config) (scale : R) (hold : Z).

Lemma update_params_returned_at g pre p post gr s u ps' s' :
  update_params cfg scale hold g (pre ++ p :: post) s = (Returned u, ps', s') ->
  p_grad p = Some gr ->
  exists c pre' post',
    comm cfg = Some c /\ is_sparse gr = false
    /\ length pre' = length pre
    /\ ps' = pre'
             ++ applied scale g p gr
                  (trust_lr (candidate_lr hold g (incr_step (state_of p)))
                     (allReduce_sum c (s + 2 * count_grads pre)
                        (fst (partial_sums scale g p gr)))
                     (allReduce_sum c (S (s + 2 * count_grads pre))
                        (snd (partial_sums scale g p gr))))
             :: post'.
Proof.
  rewrite update_params_app. intros E Hg.
  destruct (update_params cfg scale hold g pre s) as [[[u1|e1] pre'] sA] eqn:Epre;
    [|discriminate].
  apply update_params_returned in Epre. destruct Epre as [Hf ->].
  cbn [update_params] in E.
  destruct (update_param cfg scale hold g p (s + 2 * count_grads pre))
    as [[[u2|e2] p'] sB] eqn:Ep; [|discriminate].
  destruct (update_params cfg scale hold g post sB) as [[r post'] sC].
  apply update_param_returned in Ep.
  destruct Ep as [(Eg & _) | (gr' & c & Eg & Es & Ec & -> & ->)];
    rewrite Hg in Eg; [discriminate|].
  inversion Eg; subst gr'. inversion E; subst.
  exists c, pre', post'. repeat split; auto.
  symmetry. eapply Forall2_length; eauto.
Qed.

Lemma update_groups_returned_at gpre g gpost pre p post gr s u grs' s' :
  update_groups cfg scale hold (gpre ++ g :: gpost) s = (Returned u, grs', s') ->
  params g = pre ++ p :: post ->
  p_grad p = Some gr ->
  exists c gpre' gpost' pre' post',
    comm cfg = Some c /\ is_sparse gr = false
    /\ length gpre' = length gpre /\ length pre' = length pre
    /\ grs' = gpre'
              ++ with_params g
                   (pre'
                    ++ applied scale g p gr
                         (trust_lr (candidate_lr hold g (incr_step (state_of p)))
                            (allReduce_sum c
                               (s + 2 * (count_grads (all_params gpre)
                                         + count_grads pre))
                               (fst (partial_sums scale g p gr)))
                            (allReduce_sum c
                               (S (s + 2 * (count_grads (all_params gpre)
                                            + count_grads pre)))
                               (snd (partial_sums scale g p gr))))
                    :: post')
              :: gpost'.
Proof.
  rewrite update_groups_app. intros E Hps Hg.
  destruct (update_groups cfg scale hold gpre s) as [[[u1|e1] gpre'] sA] eqn:Epre;
    [|discriminate].
  apply update_groups_returned in Epre. destruct Epre as [Hf ->].
  cbn [update_groups] in E. rewrite Hps in E.
  destruct (update_params cfg scale hold g (pre ++ p :: post)
              (s + 2 * count_grads (all_params gpre)))
    as [[[u2|e2] ps'] sB] eqn:Eps; [|discriminate].
  destruct (update_groups cfg scale hold gpost sB) as [[r gpost'] sC].
  destruct (update_params_returned_at g pre p post gr _ _ _ _ Eps Hg)
    as (c & pre' & post' & Hc & Hs & Hl & ->).
  inversion E; subst.
  exists c, gpre', gpost', pre', post'.
  replace (s + 2 * (count_grads (all_params gpre) + count_grads pre))%nat
    with (s + 2 * count_grads (all_params gpre) + 2 * count_grads pre)%nat by lia.
  repeat split; auto.
  symmetry. eapply Forall2_length; eauto.
Qed.
End Completed.

Lemma step_returned_clear cfg closure o seq l :
  outcome (step cfg closure o seq) = Returned l ->
  (overflow_flag cfg closure o seq <= 0)%Z.
Proof.
  intros E. destruct (Z.lt_ge_cases 0 (overflow_flag cfg closure o seq)) as [H|H];
    [|exact H].
  destruct (step_overflow cfg closure o seq H) as [Hr _]. congruence.
Qed.

(** The parameter at a given place, with a gradient, after a step that
    completed. *)
Lemma step_returned_at cfg closure o seq l gpre g gpost pre p post gr :
  outcome (step cfg closure o seq) = Returned l ->
  param_groups (snd (run_closure closure o)) = gpre ++ g :: gpost ->
  params g = pre ++ p :: post ->
  p_grad p = Some gr ->
  exists c g',
    comm cfg = Some c /\ is_sparse gr = false
    /\ nth_error (param_groups (final (step cfg closure o seq))) (length gpre)
       = Some g'
    /\ nth_error (params g') (length pre)
       = Some (applied (_scale o) g p gr
                 (trust_lr (candidate_lr (_hold_steps o) g (incr_step (state_of p)))
                    (allReduce_sum c
                       (S seq + 2 * (count_grads (all_params gpre)
                                      + count_grads pre))
                       (fst (partial_sums (_scale o) g p gr)))
                    (allReduce_sum c
                       (S (S seq + 2 * (count_grads (all_params gpre)
                                        + count_grads pre)))
                       (snd (partial_sums (_scale o) g p gr))))).
Proof.
  intros Hr Hgs Hps Hg.
  pose proof (step_returned_clear _ _ _ _ _ Hr) as Hfl.
  destruct (step_clear cfg closure o seq Hfl) as [Hr' Hf].
  rewrite Hr' in Hr. rewrite Hf. clear Hr' Hf.
  pose proof (run_closure_frame closure o) as F. simpl in F.
  destruct F as (_ & _ & Fs & _ & Fh).
  simpl in *. rewrite Hgs, Fs, Fh in *.
  destruct (update_groups cfg (_scale o) (_hold_steps o) (gpre ++ g :: gpost) _)
    as [[[u|e] grs'] s'] eqn:E; unfold outcome in Hr; simpl in Hr;
    [|discriminate].
  destruct (update_groups_returned_at _ _ _ _ _ _ _ _ _ _ _ _ _ _ E Hps Hg)
    as (c & gpre' & gpost' & pre' & post' & Hc & Hs & Hl1 & Hl2 & ->).
  exists c. eexists. unfold final. simpl.
  unfold reduce_flag. rewrite Hc. simpl.
  repeat split; auto.
  - rewrite nth_error_app2 by lia. rewrite Hl1, Nat.sub_diag. reflexivity.
  - simpl. rewrite nth_error_app2 by lia. rewrite Hl2, Nat.sub_diag. reflexivity.
Qed.

(** ** The effective learning rate *)

Lemma allReduce_sum_total (c : Comm) (k : nat) (x : R) :
  allReduce_sum c k x = x + Rsum (peers_f32 c k).
Proof.
  unfold allReduce_sum, Rsum. generalize (peers_f32 c k) as l. intros l.
  revert x. induction l as [|y l IH]; intros x; simpl; [lra|].
  rewrite IH. lra.
Qed.

(** C3: in a step that completes, every parameter with a gradient is left as
    the apply phase leaves it when run with the learning rate
    [candidate * sqrt (numerator / (denominator + 1e-10))], where [candidate]
    is 0 when the parameter's step, once advanced, is at most [hold_steps] and
    the group's [lr] otherwise, and [numerator] and [denominator] are the local
    partial sums of the prepare phase plus the contributions of the other
    workers to the parameter's two collectives. *)
Theorem effective_lr_is_trust_ratio (cfg : Config) (closure : option Closure)
  (o : LambOptimizer) (seq : nat) (l : option R)
  (gpre gpost : list Group) (g : Group) (pre post : list Param) (p : Param)
  (gr : Grad) :
  outcome (step cfg closure o seq) = Returned l ->
  param_groups (snd (run_closure closure o)) = gpre ++ g :: gpost ->
  params g = pre ++ p :: post ->
  p_grad p = Some gr ->
  exists c g',
    comm cfg = Some c
    /\ let k := (S seq + 2 * (count_grads (all_params gpre) + count_grads pre))%nat in
       let numerator :=
         fst (partial_sums (_scale o) g p gr) + Rsum (peers_f32 c k) in
       let denominator :=
         snd (partial_sums (_scale o) g p gr) + Rsum (peers_f32 c (S k)) in
       let candidate :=
         if (step_count (state_of p) + 1 <=? _hold_steps o)%Z then 0 else lr g in
       let lr_eff := candidate * sqrt (numerator / (denominator + 1e-10)) in
       nth_error (param_groups (final (step cfg closure o seq))) (length gpre)
       = Some g'
       /\ nth_error (params g') (length pre)
          = Some (applied (_scale o) g p gr lr_eff).
Proof.
  intros Hr Hgs Hps Hg.
  destruct (step_returned_at cfg closure o seq l gpre g gpost pre p post gr
              Hr Hgs Hps Hg) as (c & g' & Hc & _ & Hn1 & Hn2).
  exists c, g'. split; [exact Hc|]. cbv zeta. split; [exact Hn1|].
  rewrite Hn2. rewrite !allReduce_sum_total. reflexivity.
Qed.

Lemma effective_lr_is_trust_ratio_witness :
  exists c g',
    comm with_comm = Some c
    /\ nth_error
         (param_groups (final (step with_comm None (optimizer_of [dense_param] 0) 0)))
         0
       = Some g'
    /\ nth_error (params g') 0
       = Some (applied 65536 (mkGroup [dense_param] 1e-3 (0.9, 0.999) 1e-8 0)
                 dense_param (mkGrad false [finite 2])
                 (1e-3
                  * sqrt ((fst (partial_sums 65536
                                  (mkGroup [dense_param] 1e-3 (0.9, 0.999) 1e-8 0)
                                  dense_param (mkGrad false [finite 2])) + 0)
                          / (snd (partial_sums 65536
                                    (mkGroup [dense_param] 1e-3 (0.9, 0.999) 1e-8 0)
                                    dense_param (mkGrad false [finite 2])) + 0
                             + 1e-10)))).
Proof.
  destruct (effective_lr_is_trust_ratio with_comm None
              (optimizer_of [dense_param] 0) 0 None [] []
              (mkGroup [dense_param] 1e-3 (0.9, 0.999) 1e-8 0)
              [] [] dense_param (mkGrad false [finite 2])
              eq_refl eq_refl eq_refl eq_refl)
    as (c & g' & Hc & Hn1 & Hn2).
  exists c, g'. inversion Hc; subst c. repeat split; [exact Hn1 | exact Hn2].
Defined.

(** ** The hold window *)







(** *** The working copy follows the master copy *)
















(** * Further properties of the code *)

(** ** Construction *)

Ltac destruct_range_checks :=
  repeat match goal with
         | |- context [Rle_dec ?a ?b] => destruct (Rle_dec a b)
         | |- context [Rlt_dec ?a ?b] => destruct (Rlt_dec a b)
         end.

(** X1: a construction with a hyperparameter out of range (a negative [lr],
    [eps] or [weight_decay], a beta outside [0, 1)) or with no parameter at
    all raises [ValueError]; no optimizer is made. *)
Theorem init_rejects_out_of_range (ps : list Param) (lr_ : R) (betas_ : R * R)
  (eps_ wd sc : R) (hold : Z) :
  ~ (0 <= lr_ /\ 0 <= eps_ /\ 0 <= fst betas_ < 1 /\ 0 <= snd betas_ < 1
     /\ 0 <= wd /\ ps <> []) ->
  __init__ ps lr_ betas_ eps_ wd sc hold = Raised ValueError.
Proof.
  intros H. unfold __init__. destruct_range_checks; try reflexivity.
  destruct ps; [reflexivity|]. exfalso. apply H.
  repeat split; auto; discriminate.
Qed.

Lemma init_rejects_out_of_range_witness :
  __init__ [dense_param] (-1) (0.9, 0.999) 1e-8 0 65536 0 = Raised ValueError
  /\ __init__ [dense_param] 1e-3 (0.9, 1) 1e-8 0 65536 0 = Raised ValueError
  /\ __init__ [] 1e-3 (0.9, 0.999) 1e-8 0 65536 0 = Raised ValueError.
Proof.
  repeat split; apply init_rejects_out_of_range; simpl.
  - intros (H & _). lra.
  - intros (_ & _ & _ & H & _). lra.
  - intros (_ & _ & _ & _ & _ & H). now apply H.
Defined.

(** X2: a construction with every hyperparameter in range and at least one
    parameter returns an optimizer with one group holding the
    hyperparameters and the tensors as given, an empty state for every
    tensor, the scale and the hold window as given (whatever they are) and
    [steps_since_last_scale] at 0. *)
Theorem init_makes_fresh_optimizer (ps : list Param) (lr_ : R)
  (betas_ : R * R) (eps_ wd sc : R) (hold : Z) :
  0 <= lr_ -> 0 <= eps_ -> 0 <= fst betas_ < 1 -> 0 <= snd betas_ < 1 ->
  0 <= wd -> ps <> [] ->
  exists o,
    __init__ ps lr_ betas_ eps_ wd sc hold = Returned o
    /\ scale o = sc
    /\ steps_since_last_scale o = 0%Z
    /\ _hold_steps o = hold
    /\ map hyper (param_groups o) = [(lr_, betas_, eps_, wd)]
    /\ workings (param_groups o) = [map p_data ps]
    /\ map p_grad (all_params (param_groups o)) = map p_grad ps
    /\ states (param_groups o) = [map (fun _ => None) ps].
Proof.
  intros H1 H2 [H3 H4] [H5 H6] H7 H8. unfold __init__.
  destruct_range_checks; try contradiction.
  destruct ps as [|p ps]; [contradiction|].
  eexists. split; [reflexivity|].
  unfold scale, steps_since_last_scale, states, workings, all_params, hyper.
  repeat split; simpl; rewrite ?app_nil_r, ?map_map; reflexivity.
Qed.

Lemma init_makes_fresh_optimizer_witness :
  exists o,
    __init__ [dense_param; sparse_param] 1e-3 (0.9, 0.999) 1e-8 0 (-4) 3
    = Returned o
    /\ scale o = -4
    /\ steps_since_last_scale o = 0%Z
    /\ states (param_groups o) = [[None; None]].
Proof.
  destruct (init_makes_fresh_optimizer [dense_param; sparse_param] 1e-3
              (0.9, 0.999) 1e-8 0 (-4) 3)
    as (o & E & Hs & Hc & _ & _ & _ & _ & Hst);
    simpl; try lra; try discriminate.
  exists o. repeat split; assumption.
Defined.

(** ** Rescaling *)

Lemma rescale_param_unscaled (delta : R) (p : Param) :
  unscaled (rescale_param delta p) = unscaled p.
Proof.
  unfold rescale_param, unscaled. destruct (p_state p) as [st|] eqn:E; simpl.
  - reflexivity.
  - now rewrite E.
Qed.

Lemma rescale_group_view (delta : R) (g : Group) :
  hyper (rescale_group delta g) = hyper g
  /\ map unscaled (params (rescale_group delta g)) = map unscaled (params g).
Proof.
  split; [reflexivity|]. simpl. rewrite map_map.
  apply map_ext. intros p. apply rescale_param_unscaled.
Qed.

(** X3: [justify_scale] writes nothing but the scale, the counter and the two
    moments: every group keeps its hyperparameters, every parameter its
    working copy, its gradient, its step and its master copy, a parameter with
    an empty state keeps it empty, and the hold window stays; and it raises
    (the [ZeroDivisionError] of the quotient) exactly when the current scale
    is 0, in which case the optimizer is left as it was. *)
Theorem justify_scale_frame (s : R) (o : LambOptimizer) :
  let o' := snd (justify_scale s o) in
  map hyper (param_groups o') = map hyper (param_groups o)
  /\ map (fun g => map unscaled (params g)) (param_groups o')
     = map (fun g => map unscaled (params g)) (param_groups o)
  /\ _hold_steps o' = _hold_steps o
  /\ (fst (justify_scale s o) = Raised ZeroDivisionError <-> scale o = 0)
  /\ (fst (justify_scale s o) = Returned tt <-> scale o <> 0)
  /\ (scale o = 0 -> o' = o).
Proof.
  unfold justify_scale, scale.
  destruct (Req_dec_T (_scale o) 0) as [Hz|Hn]; simpl.
  - repeat split; auto; try discriminate. intros H. contradiction.
  - rewrite !map_map. repeat split; try (intros; congruence).
    apply map_ext. intros g. apply rescale_group_view.
Qed.

Lemma rescale_param_compose (d1 d2 : R) (p : Param) :
  rescale_param d2 (rescale_param d1 p) = rescale_param (d1 * d2) p.
Proof.
  destruct p as [w g [[t m v x]|]]; unfold rescale_param; simpl; [|reflexivity].
  unfold scale_moments; simpl. rewrite !map_map. do 3 f_equal.
  - apply map_ext. intros a. ring.
  - apply map_ext. intros a. ring.
Qed.

Lemma rescale_group_compose (d1 d2 : R) (g : Group) :
  rescale_group d2 (rescale_group d1 g) = rescale_group (d1 * d2) g.
Proof.
  unfold rescale_group; simpl. f_equal. rewrite map_map.
  apply map_ext. intros p. apply rescale_param_compose.
Qed.

(** X4: rescalings compose: from a nonzero scale, rescaling to a nonzero
    [s1] and then to [s2] leaves the optimizer exactly as rescaling to [s2]
    at once does (the moments are multiplied by [s2 / old] either way). *)
Theorem justify_scale_compose (o : LambOptimizer) (s1 s2 : R) :
  scale o <> 0 -> s1 <> 0 ->
  justify_scale s2 (snd (justify_scale s1 o)) = justify_scale s2 o.
Proof.
  unfold scale. intros Ho H1.
  rewrite (justify_scale_ok s1 o Ho). simpl.
  rewrite justify_scale_ok by (simpl; exact H1).
  rewrite (justify_scale_ok s2 o Ho). simpl.
  do 2 f_equal. rewrite map_map. apply map_ext. intros g.
  rewrite rescale_group_compose. f_equal. now field.
Qed.

Lemma justify_scale_compose_witness :
  justify_scale 131072 (snd (justify_scale 32768 warm_optimizer))
  = justify_scale 131072 warm_optimizer
  /\ map (fun g => map moments (params g))
         (param_groups (snd (justify_scale 32768 warm_optimizer)))
     = [[Some ([3 / 2], [5 / 2]); None]]
  /\ map (fun g => map moments (params g))
         (param_groups
            (snd (justify_scale 131072 (snd (justify_scale 32768 warm_optimizer)))))
     = [[Some ([6], [10]); None]].
Proof.
  assert (Hs : scale warm_optimizer <> 0) by (unfold scale; simpl; lra).
  assert (H1 : 32768 <> 0) by lra.
  pose proof (justify_scale_compose warm_optimizer 32768 131072 Hs H1) as E.
  split; [exact E|]. split.
  - rewrite (justify_scale_ok 32768 warm_optimizer Hs).
    cbn [snd param_groups]. rewrite moments_rescale_groups.
    simpl. unfold times. simpl.
    replace (3 * (32768 / 65536)) with (3 / 2) by lra.
    replace (5 * (32768 / 65536)) with (5 / 2) by lra.
    reflexivity.
  - rewrite E, (justify_scale_ok 131072 warm_optimizer Hs).
    cbn [snd param_groups]. rewrite moments_rescale_groups.
    simpl. unfold times. simpl.
    replace (3 * (131072 / 65536)) with 6 by lra.
    replace (5 * (131072 / 65536)) with 10 by lra.
    reflexivity.
Defined.

Lemma rescale_group_one (g : Group) : rescale_group 1 g = g.
Proof.
  destruct g as [ps l b e w]. unfold rescale_group; simpl. f_equal.
  rewrite <- (map_id ps) at 2. apply map_ext.
  intros [w' g' [[t m v x]|]]; unfold rescale_param; simpl; [|reflexivity].
  unfold scale_moments; simpl. do 3 f_equal.
  - rewrite <- (map_id m) at 2. apply map_ext. intros a. ring.
  - rewrite <- (map_id v) at 2. apply map_ext. intros a. ring.
Qed.

(** X5: rescaling to the scale the optimizer already has is not a no-op: it
    leaves every group and the scale as they are and sets
    [steps_since_last_scale] back to 0. *)
Theorem justify_scale_same_scale_resets_counter (o : LambOptimizer) :
  scale o <> 0 ->
  justify_scale (scale o) o
  = (Returned tt,
     {| param_groups := param_groups o;
        _scale := _scale o;
        _steps_since_last_scale := 0;
        _hold_steps := _hold_steps o |}).
Proof.
  unfold scale. intros Ho. rewrite (justify_scale_ok (_scale o) o Ho).
  do 2 f_equal. replace (_scale o / _scale o) with 1 by now field.
  rewrite <- (map_id (param_groups o)) at 2. apply map_ext.
  apply rescale_group_one.
Qed.

Lemma justify_scale_same_scale_resets_counter_witness :
  steps_since_last_scale
    (snd (justify_scale 65536 (tick (optimizer_of [dense_param] 0)))) = 0%Z
  /\ steps_since_last_scale (tick (optimizer_of [dense_param] 0)) = 1%Z.
Proof.
  split; [|reflexivity].
  assert (H : scale (tick (optimizer_of [dense_param] 0)) <> 0)
    by (unfold scale; simpl; lra).
  pose proof (justify_scale_same_scale_resets_counter
                (tick (optimizer_of [dense_param] 0)) H) as E.
  unfold scale in E. simpl in E. rewrite E. reflexivity.
Defined.

(** ** Loss scaling *)

(** X6: with a nonzero world size, [loss_scale] returns a value whose sum over
    the [world_size] workers is [loss * scale], and after a rescaling to
    [k * scale] it returns [k] times that value; without the key
    ['world_size'] it raises [KeyError] and with a world size of 0
    [ZeroDivisionError]. *)
Theorem loss_scale_follows_scale (n : Z) (o : LambOptimizer) (loss k : R) :
  n <> 0%Z -> scale o <> 0 ->
  exists v,
    loss_scale (Some n) o loss = Returned v
    /\ IZR n * v = loss * scale o
    /\ loss_scale (Some n) (snd (justify_scale (k * scale o) o)) loss
       = Returned (k * v)
    /\ loss_scale None o loss = Raised KeyError
    /\ loss_scale (Some 0%Z) o loss = Raised ZeroDivisionError.
Proof.
  intros Hn Ho. unfold loss_scale.
  apply Z.eqb_neq in Hn as Hb. rewrite Hb.
  assert (Hr : IZR n <> 0) by now apply not_0_IZR.
  eexists. split; [reflexivity|]. split; [now field|].
  split; [|split; reflexivity].
  unfold scale in *. rewrite (justify_scale_ok _ o Ho). simpl.
  f_equal. now field.
Qed.

Lemma loss_scale_follows_scale_witness :
  exists v,
    loss_scale (Some 8%Z) (optimizer_of [dense_param] 0) 3 = Returned v
    /\ 8 * v = 3 * 65536.
Proof.
  destruct (loss_scale_follows_scale 8 (optimizer_of [dense_param] 0) 3 2)
    as (v & E & Hv & _).
  - discriminate.
  - unfold scale. simpl. lra.
  - exists v. split; [exact E | exact Hv].
Defined.

(** ** The warmup ramp *)

(** X7: with [start_lr >= 0] and [warmup_iter > 0], the warmup learning rate
    is nondecreasing in the iteration count and stays between 0 and
    [start_lr] up to [warmup_iter]. *)
Theorem warmup_ramp_monotone (self : NoDecay.t) (n m : Z) :
  0 <= NoDecay.start_lr self ->
  (0 <= n <= m)%Z -> (m <= NoDecay.warmup_iter self)%Z ->
  (0 < NoDecay.warmup_iter self)%Z ->
  exists a b,
    NoDecay.get_lr_warmpup self n = Returned a
    /\ NoDecay.get_lr_warmpup self m = Returned b
    /\ 0 <= a <= b /\ b <= NoDecay.start_lr self.
Proof.
  intros Hs [Hn Hnm] Hm Hw. unfold NoDecay.get_lr_warmpup.
  destruct (Z.eqb_spec (NoDecay.warmup_iter self) 0) as [E|E]; [lia|].
  do 2 eexists. split; [reflexivity|]. split; [reflexivity|].
  apply IZR_le in Hn, Hnm, Hm. apply IZR_lt in Hw.
  set (w := IZR (NoDecay.warmup_iter self)) in *.
  set (x := IZR n) in *. set (y := IZR m) in *.
  set (s := NoDecay.start_lr self) in *.
  assert (Hi : 0 < / w) by now apply Rinv_0_lt_compat.
  unfold Rdiv. repeat split.
  - apply Rmult_le_pos; [apply Rmult_le_pos|]; lra.
  - apply Rmult_le_compat_r; [lra|]. apply Rmult_le_compat_l; lra.
  - replace s with (s * w * / w) at 2 by (field; lra).
    apply Rmult_le_compat_r; [lra|]. apply Rmult_le_compat_l; lra.
Qed.

Lemma warmup_ramp_monotone_witness :
  exists a b,
    NoDecay.get_lr_warmpup (NoDecay.mk 1e-3 10) 3 = Returned a
    /\ NoDecay.get_lr_warmpup (NoDecay.mk 1e-3 10) 7 = Returned b
    /\ 0 <= a <= b /\ b <= 1e-3.
Proof.
  apply (warmup_ramp_monotone (NoDecay.mk 1e-3 10) 3 7); simpl; try lia; lra.
Defined.

(** ** The overflow flag *)

Lemma scan_params_flag (ps : list Param) (fl : Z) :
  scan_params ps fl = if existsb bad_grad ps then 1%Z else fl.
Proof.
  unfold scan_params. revert fl.
  induction ps as [|p ps IH]; intros fl; simpl; [reflexivity|].
  rewrite IH. unfold bad_grad at 2, f_has_inf_nan.
  destruct (p_grad p) as [g|]; simpl; [|reflexivity].
  destruct (existsb is_inf_nan (values g)); simpl; [|reflexivity].
  now destruct (existsb bad_grad ps).
Qed.

Lemma fold_scan_flag (grs : list Group) (fl : Z) :
  fold_left (fun fl g => scan_params (params g) fl) grs fl
  = if existsb bad_grad (all_params grs) then 1%Z else fl.
Proof.
  revert fl. induction grs as [|g grs IH]; intros fl; simpl; [reflexivity|].
  rewrite IH, scan_params_flag, existsb_app.
  destruct (existsb bad_grad (params g)); simpl; [|reflexivity].
  now destruct (existsb bad_grad (all_params grs)).
Qed.

(** X8: the local overflow flag of lines 66-70 is 1 when some parameter with
    a gradient has an infinite or not-a-number element in it and 0 otherwise,
    whatever the order of the groups and parameters; parameters without a
    gradient are not looked at.  (The detector kernel is the one modelled
    from the spec.) *)
Theorem has_inf_or_nan_flag (grs : list Group) :
  has_inf_or_nan grs = if existsb bad_grad (all_params grs) then 1%Z else 0%Z.
Proof. unfold has_inf_or_nan. apply fold_scan_flag. Qed.

Lemma allReduce_max_positive (c : Comm) (seq : nat) (x : Z) :
  (0 < allReduce_max c seq x)%Z
  <-> (0 < x)%Z \/ Exists (fun z => (0 < z)%Z) (peers_u8 c seq).
Proof.
  unfold allReduce_max. generalize (peers_u8 c seq) as l. intros l. revert x.
  induction l as [|y l IH]; intros x; simpl.
  - split; [auto | intros [H|H]; [exact H | inversion H]].
  - rewrite IH. split.
    + intros [H|H]; [|right; now constructor 2].
      destruct (Z.max_spec x y) as [[_ E]|[_ E]]; rewrite E in H;
        [right; now constructor 1 | now left].
    + intros [H|H]; [left; lia|].
      inversion H; subst; [left; lia | now right].
Qed.

(** X9: with a group configured, a step ends in [OverflowError] exactly when
    a gradient of this worker has a non-finite element or another worker of
    the group contributes a raised flag to the MAX-reduction; and then the
    optimizer is the one the closure left. *)
Theorem overflow_is_agreed_by_the_group (cfg : Config) (c : Comm)
  (closure : option Closure) (o : LambOptimizer) (seq : nat) :
  comm cfg = Some c ->
  let o1 := snd (run_closure closure o) in
  (outcome (step cfg closure o seq) = Raised OverflowError
   <-> existsb bad_grad (all_params (param_groups o1)) = true
       \/ Exists (fun z => (0 < z)%Z) (peers_u8 c seq))
  /\ (outcome (step cfg closure o seq) = Raised OverflowError ->
      final (step cfg closure o seq) = o1).
Proof.
  intros Hc o1.
  assert (Hfl : (0 < overflow_flag cfg closure o seq)%Z
                <-> existsb bad_grad (all_params (param_groups o1)) = true
                    \/ Exists (fun z => (0 < z)%Z) (peers_u8 c seq)).
  { unfold overflow_flag, reduce_flag. rewrite Hc. simpl.
    rewrite allReduce_max_positive, has_inf_or_nan_flag. fold o1.
    destruct (existsb bad_grad (all_params (param_groups o1))).
    - split; intros _; left; [reflexivity | lia].
    - split; (intros [H|H]; [discriminate H || lia | now right]). }
  assert (Hov : outcome (step cfg closure o seq) = Raised OverflowError
                <-> (0 < overflow_flag cfg closure o seq)%Z).
  { split.
    - intros Hr.
      destruct (Z.lt_ge_cases 0 (overflow_flag cfg closure o seq)) as [H|H];
        [exact H|].
      destruct (step_clear cfg closure o seq H) as [Hr' _].
      rewrite Hr' in Hr.
      match type of Hr with
      | match outcome ?u with _ => _ end = _ =>
          pose proof (update_groups_outcome cfg
                        (_scale (tick (snd (run_closure closure o))))
                        (_hold_steps (tick (snd (run_closure closure o))))
                        (param_groups (tick (snd (run_closure closure o))))
                        (snd (reduce_flag cfg seq
                                (has_inf_or_nan
                                   (param_groups
                                      (tick (snd (run_closure closure o))))))))
            as L;
          destruct (outcome u) as [u'|e]; [discriminate Hr|];
          simpl in L; destruct L as [-> | ->]; discriminate Hr
      end.
    - intros H. now destruct (step_overflow cfg closure o seq H). }
  split; [now rewrite Hov, Hfl|].
  intros Hr. apply Hov in Hr. now destruct (step_overflow cfg closure o seq Hr).
Qed.

Lemma overflow_is_agreed_by_the_group_witness :
  outcome (step {| comm := Some overflowing_peer |} None
             (optimizer_of [dense_param] 0) 0)
  = Raised OverflowError
  /\ existsb bad_grad (all_params (param_groups (optimizer_of [dense_param] 0)))
     = false.
Proof.
  split; [|reflexivity].
  apply (overflow_is_agreed_by_the_group {| comm := Some overflowing_peer |}
           overflowing_peer None (optimizer_of [dense_param] 0) 0 eq_refl).
  right. simpl. constructor. lia.
Defined.

(** ** What a step can do to the parameters, however it ends *)

Lemma steps_taken_state_of (p : Param) : steps_taken p = step_count (state_of p).
Proof. unfold steps_taken, state_of. now destruct (p_state p). Qed.

Lemma param_moved_refl (p : Param) : param_moved p p.
Proof. unfold param_moved. split; [reflexivity | lia]. Qed.

Lemma group_moved_refl (g : Group) : group_moved g g.
Proof.
  unfold group_moved. repeat split; auto.
  induction (params g); constructor; auto using param_moved_refl.
Qed.

Lemma update_param_moved cfg sc hold g p seq :
  param_moved p (final (update_param cfg sc hold g p seq)).
Proof.
  destruct (p_grad p) as [gr|] eqn:Eg.
  - destruct (is_sparse gr) eqn:Es.
    + rewrite (update_param_sparse cfg sc hold g p gr seq Eg Es).
      apply param_moved_refl.
    + destruct (comm cfg) as [c|] eqn:Ec.
      * rewrite (update_param_dense cfg sc hold g p gr c seq Eg Es Ec).
        unfold final, param_moved, applied. simpl.
        rewrite (steps_taken_state_of p). unfold steps_taken. simpl.
        split; [reflexivity | lia].
      * rewrite (update_param_no_comm cfg sc hold g p gr seq Eg Es Ec).
        unfold final, param_moved. simpl.
        rewrite (steps_taken_state_of p). unfold steps_taken. simpl.
        split; [reflexivity | lia].
  - rewrite (update_param_no_grad cfg sc hold g p seq Eg).
    apply param_moved_refl.
Qed.

Lemma update_params_moved cfg sc hold g ps seq :
  Forall2 param_moved ps (final (update_params cfg sc hold g ps seq)).
Proof.
  unfold final. revert seq. induction ps as [|p ps IH]; intros seq; simpl.
  - constructor.
  - pose proof (update_param_moved cfg sc hold g p seq) as Hp. unfold final in Hp.
    destruct (update_param cfg sc hold g p seq) as [[[u|e] p'] s1]; simpl in *.
    + specialize (IH s1).
      destruct (update_params cfg sc hold g ps s1) as [[r ps'] s2]. simpl in *.
      now constructor.
    + constructor; [exact Hp|].
      clear. induction ps; constructor; auto using param_moved_refl.
Qed.

Lemma update_groups_moved cfg sc hold grs seq :
  Forall2 group_moved grs (final (update_groups cfg sc hold grs seq)).
Proof.
  unfold final. revert seq. induction grs as [|g grs IH]; intros seq; simpl.
  - constructor.
  - pose proof (update_params_moved cfg sc hold g (params g) seq) as Hp.
    unfold final in Hp.
    destruct (update_params cfg sc hold g (params g) seq) as [[[u|e] ps'] s1];
      simpl in *.
    + specialize (IH s1).
      destruct (update_groups cfg sc hold grs s1) as [[r grs'] s2]. simpl in *.
      constructor; [|exact IH]. unfold group_moved. simpl. auto.
    + constructor; [unfold group_moved; simpl; auto|].
      clear. induction grs; constructor; auto using group_moved_refl.
Qed.

(** X10: however a step ends (loss returned, [OverflowError], [RuntimeError]
    or [KeyError]), it leaves the number of groups and of parameters, every
    group's hyperparameters, every gradient, the scale and the hold window as
    they were after the closure, and the step of every parameter either where
    it was or advanced by one: steps never go back and never jump. *)
Theorem step_moves_steps_by_at_most_one (cfg : Config)
  (closure : option Closure) (o : LambOptimizer) (seq : nat) :
  let o1 := snd (run_closure closure o) in
  let o' := final (step cfg closure o seq) in
  Forall2 group_moved (param_groups o1) (param_groups o')
  /\ scale o' = scale o
  /\ _hold_steps o' = _hold_steps o.
Proof.
  intros o1 o'. subst o1 o'. unfold scale.
  pose proof (run_closure_frame closure o) as F. simpl in F.
  destruct F as (_ & _ & Fs & _ & Fh).
  destruct (Z.lt_ge_cases 0 (overflow_flag cfg closure o seq)) as [H|H].
  - destruct (step_overflow cfg closure o seq H) as [_ Hf]. rewrite Hf.
    repeat split; auto.
    induction (param_groups (snd (run_closure closure o))); constructor;
      auto using group_moved_refl.
  - destruct (step_clear cfg closure o seq H) as [_ Hf]. rewrite Hf. simpl.
    repeat split; auto. apply update_groups_moved.
Qed.

(** ** A step that completes *)

Lemma groups_advanced_flat (grs grs' : list Group) :
  groups_advanced grs grs' ->
  Forall2 advanced (all_params grs) (all_params grs').
Proof.
  induction 1 as [|g g' grs grs' [Hp _] _ IH]; simpl; [constructor|].
  now apply Forall2_app.
Qed.

Lemma step_returned_groups cfg closure o seq l :
  outcome (step cfg closure o seq) = Returned l ->
  let o1 := snd (run_closure closure o) in
  l = fst (run_closure closure o)
  /\ groups_advanced (param_groups o1) (param_groups (final (step cfg closure o seq)))
  /\ snd (step cfg closure o seq)
     = (snd (reduce_flag cfg seq (has_inf_or_nan (param_groups o1)))
        + 2 * count_grads (all_params (param_groups o1)))%nat
  /\ exists u grs' s',
       update_groups cfg (_scale o1) (_hold_steps o1) (param_groups o1)
         (snd (reduce_flag cfg seq (has_inf_or_nan (param_groups o1))))
       = (Returned u, grs', s').
Proof.
  intros Hr o1. subst o1.
  pose proof (step_returned_clear _ _ _ _ _ Hr) as Hfl.
  unfold overflow_flag, step, outcome, final in *.
  destruct (run_closure closure o) as [loss o1]. simpl in *.
  destruct (reduce_flag cfg seq (has_inf_or_nan (param_groups o1))) as [fl s1].
  simpl in *. apply Z.ltb_ge in Hfl. rewrite Hfl in *.
  destruct (update_groups cfg (_scale o1) (_hold_steps o1) (param_groups o1) s1)
    as [[[u|e] grs'] s2] eqn:E; simpl in *; [|discriminate Hr].
  apply update_groups_returned in E as [Ha ->].
  inversion Hr. repeat split; eauto.
Qed.

(** X11: a step that completes returns the closure's loss, leaves every
    parameter without a gradient exactly as it was and advances the step of
    every parameter with a gradient by exactly one (from 0 when its state was
    empty). *)
Theorem completed_step_advances_parameters_with_gradient (cfg : Config)
  (closure : option Closure) (o : LambOptimizer) (seq : nat) (l : option R) :
  outcome (step cfg closure o seq) = Returned l ->
  l = fst (run_closure closure o)
  /\ Forall2 advanced
       (all_params (param_groups (snd (run_closure closure o))))
       (all_params (param_groups (final (step cfg closure o seq)))).
Proof.
  intros Hr. destruct (step_returned_groups cfg closure o seq l Hr)
    as (Hl & Ha & _).
  split; [exact Hl | now apply groups_advanced_flat].
Qed.

Lemma completed_step_advances_parameters_with_gradient_witness :
  Forall2 advanced
    [dense_param; mkParam [5] None None]
    (all_params
       (param_groups
          (final (step with_comm None
                    (optimizer_of [dense_param; mkParam [5] None None] 0) 0)))).
Proof.
  apply (completed_step_advances_parameters_with_gradient with_comm None
           (optimizer_of [dense_param; mkParam [5] None None] 0) 0 None).
  reflexivity.
Defined.

(** ** The collectives of a step *)

Lemma update_params_returned_no_comm cfg sc hold g ps seq u ps' s' :
  comm cfg = None ->
  update_params cfg sc hold g ps seq = (Returned u, ps', s') ->
  Forall (fun q => has_grad q = false) ps.
Proof.
  intros Hc. revert seq ps' s'.
  induction ps as [|p ps IH]; intros seq ps' s'; simpl; [constructor|].
  destruct (update_param cfg sc hold g p seq) as [[[u1|e] p'] s1] eqn:Ep;
    [|discriminate].
  destruct (update_params cfg sc hold g ps s1) as [[r ps1] s2] eqn:Eps.
  intros E. inversion E; subst.
  apply update_param_returned in Ep.
  destruct Ep as [(Eg & _) | (gr & c & _ & _ & Ec & _)]; [|congruence].
  constructor; [unfold has_grad; now rewrite Eg | eapply IH; eauto].
Qed.

Lemma update_groups_returned_no_comm cfg sc hold grs seq u grs' s' :
  comm cfg = None ->
  update_groups cfg sc hold grs seq = (Returned u, grs', s') ->
  Forall (fun q => has_grad q = false) (all_params grs).
Proof.
  intros Hc. revert seq grs' s'.
  induction grs as [|g grs IH]; intros seq grs' s'; simpl; [constructor|].
  destruct (update_params cfg sc hold g (params g) seq) as [[[u1|e] ps'] s1] eqn:Eps;
    [|discriminate].
  destruct (update_groups cfg sc hold grs s1) as [[r grs1] s2] eqn:Eg.
  intros E. inversion E; subst. apply Forall_app. split.
  - eapply update_params_returned_no_comm; eauto.
  - eapply IH; eauto.
Qed.

Lemma no_grads_count (ps : list Param) :
  Forall (fun q => has_grad q = false) ps -> count_grads ps = 0%nat.
Proof.
  unfold count_grads. induction 1 as [|p ps Hp _ IH]; simpl; [reflexivity|].
  now rewrite Hp.
Qed.

(** X12: a step that completes has taken part in exactly one collective for
    the flag and two for every parameter with a gradient when a group is
    configured, and in none when it is not, which is only possible when no
    parameter has a gradient. *)
Theorem completed_step_collectives (cfg : Config) (closure : option Closure)
  (o : LambOptimizer) (seq : nat) (l : option R) :
  outcome (step cfg closure o seq) = Returned l ->
  let n := count_grads (all_params (param_groups (snd (run_closure closure o)))) in
  snd (step cfg closure o seq)
  = (seq + match comm cfg with Some _ => 1 + 2 * n | None => 0 end)%nat
  /\ (comm cfg = None -> n = 0%nat).
Proof.
  intros Hr n. subst n.
  destruct (step_returned_groups cfg closure o seq l Hr)
    as (_ & _ & Hs & u & grs' & s' & E).
  rewrite Hs. unfold reduce_flag in *.
  destruct (comm cfg) as [c|] eqn:Hc; simpl in *.
  - split; [lia | discriminate].
  - assert (Hn : count_grads
                   (all_params (param_groups (snd (run_closure closure o)))) = 0%nat).
    { apply no_grads_count.
      eapply update_groups_returned_no_comm; [exact Hc | exact E]. }
    split; [lia | auto].
Qed.

Lemma completed_step_collectives_witness :
  snd (step with_comm None
         (optimizer_of [dense_param; mkParam [5] None None; dense_param] 0) 4)
  = 9%nat.
Proof.
  apply (completed_step_collectives with_comm None
           (optimizer_of [dense_param; mkParam [5] None None; dense_param] 0)
           4 None).
  reflexivity.
Defined.

(** ** How a step ends *)

Section Decided.
Variables (cfg : Config) (c : Comm) (sc : R) (hold : Z).
Hypothesis Hc : comm cfg = Some c.

Lemma update_params_decided g ps seq :
  outcome (update_params cfg sc hold g ps seq)
  = if existsb sparse_grad ps then Raised RuntimeError else Returned tt.
Proof.
  unfold outcome. revert seq.
  induction ps as [|p ps IH]; intros seq; simpl; [reflexivity|].
  unfold sparse_grad at 1. destruct (p_grad p) as [gr|] eqn:Eg.
  - destruct (is_sparse gr) eqn:Es; simpl.
    + now rewrite (update_param_sparse cfg sc hold g p gr seq Eg Es).
    + rewrite (update_param_dense cfg sc hold g p gr c seq Eg Es Hc).
      specialize (IH (S (S seq))).
      now destruct (update_params cfg sc hold g ps (S (S seq))) as [[r ps'] s2].
  - simpl. rewrite (update_param_no_grad cfg sc hold g p seq Eg).
    specialize (IH seq).
    now destruct (update_params cfg sc hold g ps seq) as [[r ps'] s2].
Qed.

Lemma update_groups_decided grs seq :
  outcome (update_groups cfg sc hold grs seq)
  = if existsb sparse_grad (all_params grs)
    then Raised RuntimeError else Returned tt.
Proof.
  unfold outcome. revert seq.
  induction grs as [|g grs IH]; intros seq; simpl; [reflexivity|].
  rewrite existsb_app.
  pose proof (update_params_decided g (params g) seq) as Hp. unfold outcome in Hp.
  destruct (update_params cfg sc hold g (params g) seq) as [[r ps'] s1].
  simpl in Hp. subst r.
  destruct (existsb sparse_grad (params g)); simpl; [reflexivity|].
  specialize (IH s1).
  now destruct (update_groups cfg sc hold grs s1) as [[r grs'] s2].
Qed.
End Decided.

(** X13: with a group configured, how a step ends is decided by the flag and
    the layouts alone: [OverflowError] when the flag is raised; otherwise
    [RuntimeError] when some parameter has a sparse gradient; otherwise the
    closure's loss is returned.  [KeyError] is impossible. *)
Theorem step_outcome_with_comm (cfg : Config) (c : Comm)
  (closure : option Closure) (o : LambOptimizer) (seq : nat) :
  comm cfg = Some c ->
  outcome (step cfg closure o seq)
  = if (0 <? overflow_flag cfg closure o seq)%Z then Raised OverflowError
    else if existsb sparse_grad
              (all_params (param_groups (snd (run_closure closure o))))
         then Raised RuntimeError
         else Returned (fst (run_closure closure o)).
Proof.
  intros Hc.
  destruct (Z.ltb_spec 0 (overflow_flag cfg closure o seq)) as [H|H].
  - now destruct (step_overflow cfg closure o seq H).
  - destruct (step_clear cfg closure o seq H) as [Hr _]. rewrite Hr.
    rewrite (update_groups_decided cfg c _ _ Hc). simpl.
    now destruct (existsb sparse_grad _).
Qed.

Lemma step_outcome_with_comm_witness :
  outcome (step with_comm None (optimizer_of [dense_param] 0) 0) = Returned None
  /\ outcome (step with_comm None (optimizer_of [dense_param; sparse_param] 0) 0)
     = Raised RuntimeError
  /\ outcome (step with_comm None (optimizer_of [sparse_param; overflow_param] 0) 0)
     = Raised OverflowError.
Proof.
  split; [|split].
  - now rewrite (step_outcome_with_comm with_comm single_worker None
                   (optimizer_of [dense_param] 0) 0 eq_refl).
  - now rewrite (step_outcome_with_comm with_comm single_worker None
                   (optimizer_of [dense_param; sparse_param] 0) 0 eq_refl).
  - now rewrite (step_outcome_with_comm with_comm single_worker None
                   (optimizer_of [sparse_param; overflow_param] 0) 0 eq_refl).
Defined.

Lemma no_grads_not_bad (ps : list Param) :
  Forall (fun q => has_grad q = false) ps -> existsb bad_grad ps = false.
Proof.
  induction 1 as [|p ps Hp _ IH]; simpl; [reflexivity|].
  rewrite IH, orb_false_r. unfold has_grad in Hp. unfold bad_grad.
  now destruct (p_grad p).
Qed.

(** X14: the missing key ["comm"] only matters to parameters with a
    gradient: without it, a step over parameters none of which has a gradient
    completes, returns the closure's loss, takes part in no collective and
    changes nothing but [steps_since_last_scale], which it increments. *)
Theorem step_without_comm_and_gradients (cfg : Config)
  (closure : option Closure) (o : LambOptimizer) (seq : nat) :
  comm cfg = None ->
  Forall (fun q => has_grad q = false)
    (all_params (param_groups (snd (run_closure closure o)))) ->
  step cfg closure o seq
  = (Returned (fst (run_closure closure o)),
     tick (snd (run_closure closure o)), seq).
Proof.
  intros Hc Hn. unfold step.
  destruct (run_closure closure o) as [loss o1]. simpl in *.
  unfold reduce_flag. rewrite Hc, has_inf_or_nan_flag.
  rewrite (no_grads_not_bad _ Hn). simpl.
  now rewrite (update_groups_no_grads cfg _ _ _ _ Hn).
Qed.

Lemma step_without_comm_and_gradients_witness :
  step without_comm None (optimizer_of [mkParam [5] None None] 0) 3
  = (Returned None, tick (optimizer_of [mkParam [5] None None] 0), 3%nat).
Proof.
  apply (step_without_comm_and_gradients without_comm None
           (optimizer_of [mkParam [5] None None] 0) 3 eq_refl).
  repeat constructor.
Defined.

(** ** Construction followed by a step *)

Lemma init_groups ps lr_ betas_ eps_ wd sc hold o :
  __init__ ps lr_ betas_ eps_ wd sc hold = Returned o ->
  all_params (param_groups o)
  = map (fun p => {| p_data := p_data p; p_grad := p_grad p; p_state := None |}) ps.
Proof.
  unfold __init__. destruct_range_checks; try (intros E; discriminate E).
  destruct ps; intros E; [discriminate E|]. inversion E.
  unfold all_params. simpl. now rewrite app_nil_r.
Qed.

Lemma Forall2_map_left {A B C : Type} (f : A -> B) (P : B -> C -> Prop)
  (l : list A) (l' : list C) :
  Forall2 P (map f l) l' -> Forall2 (fun a => P (f a)) l l'.
Proof.
  revert l'. induction l as [|a l IH]; intros l' H; inversion H; subst;
    constructor; auto.
Qed.

(** X15: the lazy initialisation, seen from the caller: in the first step
    after construction, if it completes, every tensor given with a gradient
    ends with step 1 and every tensor given without one is still without a
    state and has the working copy it was given. *)
Theorem first_step_after_construction (cfg : Config) (ps : list Param)
  (lr_ : R) (betas_ : R * R) (eps_ wd sc : R) (hold : Z)
  (o : LambOptimizer) (seq : nat) (l : option R) :
  __init__ ps lr_ betas_ eps_ wd sc hold = Returned o ->
  outcome (step cfg None o seq) = Returned l ->
  Forall2 (fun p p' =>
             match p_grad p with
             | Some _ => option_map step_count (p_state p') = Some 1%Z
             | None => p' = {| p_data := p_data p; p_grad := None;
                               p_state := None |}
             end)
    ps (all_params (param_groups (final (step cfg None o seq)))).
Proof.
  intros Hi Hr. apply init_groups in Hi.
  destruct (step_returned_groups cfg None o seq l Hr) as (_ & Ha & _).
  apply groups_advanced_flat in Ha. simpl in Ha. rewrite Hi in Ha.
  apply Forall2_map_left in Ha.
  eapply Forall2_impl; [|exact Ha].
  intros p p'. unfold advanced. simpl.
  destruct (p_grad p); auto.
Qed.

Lemma first_step_after_construction_witness :
  exists o,
    __init__ [dense_param; mkParam [5] None None] 1e-3 (0.9, 0.999) 1e-8 0 65536 0
    = Returned o
    /\ Forall2 (fun p p' =>
                  match p_grad p with
                  | Some _ => option_map step_count (p_state p') = Some 1%Z
                  | None => p' = {| p_data := p_data p; p_grad := None;
                                    p_state := None |}
                  end)
         [dense_param; mkParam [5] None None]
         (all_params (param_groups (final (step with_comm None o 0)))).
Proof.
  destruct (init_accepts [dense_param; mkParam [5] None None] 65536 0)
    as [o [Hi Hs]]; [discriminate|].
  exists o. split; [exact Hi|].
  apply (first_step_after_construction with_comm _ _ _ _ _ _ _ o 0 None Hi).
  assert (Ho : o = optimizer_of [dense_param; mkParam [5] None None] 0).
  { pose proof Hi as E. unfold __init__ in E. revert E.
    destruct_range_checks; try (intros E; discriminate E).
    intros E. inversion E. reflexivity. }
  rewrite Ho. reflexivity.
Defined.

(** ** [steps_since_last_scale] over a history *)

Lemma step_counter cfg closure o seq :
  _steps_since_last_scale (final (step cfg closure o seq))
  = (_steps_since_last_scale o
     + if (0 <? overflow_flag cfg closure o seq)%Z then 0 else 1)%Z.
Proof.
  pose proof (run_closure_frame closure o) as F. simpl in F.
  destruct F as (_ & _ & _ & Fc & _).
  destruct (Z.ltb_spec 0 (overflow_flag cfg closure o seq)) as [H|H].
  - destruct (step_overflow cfg closure o seq H) as [_ Hf]. rewrite Hf. lia.
  - destruct (step_clear cfg closure o seq H) as [_ Hf]. rewrite Hf. simpl. lia.
Qed.

Lemma history_counter cfg (l : list op) (w : LambOptimizer * nat) :
  Forall no_rescale l ->
  _steps_since_last_scale (fst (run_ops cfg w l))
  = (_steps_since_last_scale (fst w) + passed_gates cfg w l)%Z.
Proof.
  unfold run_ops. intros H. revert w.
  induction H as [|a l Ha _ IH]; intros w; simpl; [lia|].
  rewrite IH. destruct a as [gss|closure|s]; simpl in *.
  - lia.
  - pose proof (step_counter cfg closure (fst w) (snd w)) as E.
    unfold final in E.
    destruct (step cfg closure (fst w) (snd w)) as [[r o'] s']. simpl in *. lia.
  - contradiction.
Qed.

Lemma run_ops_app cfg w (l1 l2 : list op) :
  run_ops cfg w (l1 ++ l2) = run_ops cfg (run_ops cfg w l1) l2.
Proof. unfold run_ops. apply fold_left_app. Qed.

(** X16: [steps_since_last_scale] is what its name says: after a history
    whose last rescaling (from a nonzero scale) is followed by backward
    passes and steps only, it is the number of those steps that got past the
    overflow gate, whether or not their update loop went through. *)
Theorem steps_since_last_scale_counts_since_rescale (cfg : Config)
  (w : LambOptimizer * nat) (before after : list op) (s : R) :
  scale (fst (run_ops cfg w before)) <> 0 ->
  Forall no_rescale after ->
  steps_since_last_scale
    (fst (run_ops cfg w (before ++ OpJustifyScale s :: after)))
  = passed_gates cfg
      (run_op cfg (run_ops cfg w before) (OpJustifyScale s)) after.
Proof.
  unfold scale, steps_since_last_scale. intros Hs Ha.
  rewrite run_ops_app.
  change (run_ops cfg (run_ops cfg w before) (OpJustifyScale s :: after))
    with (run_ops cfg (run_op cfg (run_ops cfg w before) (OpJustifyScale s))
            after).
  rewrite (history_counter cfg after _ Ha). simpl.
  rewrite (justify_scale_ok s _ Hs). simpl. lia.
Qed.

Lemma scale_after_first_step :
  scale (fst (run_ops with_comm (optimizer_of [dense_param] 0, 0%nat)
                [OpStep None])) <> 0.
Proof.
  unfold scale.
  change (run_ops with_comm (optimizer_of [dense_param] 0, 0%nat) [OpStep None])
    with (run_op with_comm (optimizer_of [dense_param] 0, 0%nat) (OpStep None)).
  apply Rgt_not_eq. apply run_op_positive; simpl; [exact I | lra].
Qed.

Lemma steps_since_last_scale_counts_since_rescale_witness :
  steps_since_last_scale
    (fst (run_ops with_comm (optimizer_of [dense_param] 0, 0%nat)
            ([OpStep None]
             ++ OpJustifyScale 1024
             :: [OpStep None;
                 OpBackward [[Some (mkGrad false [inf])]];
                 OpStep None;
                 OpBackward [[Some (mkGrad true [finite 2])]];
                 OpStep None])))
  = 2%Z.
Proof.
  rewrite (steps_since_last_scale_counts_since_rescale with_comm
             (optimizer_of [dense_param] 0, 0%nat) [OpStep None] _ 1024
             scale_after_first_step);
    [|repeat constructor].
  change (run_op with_comm
            (run_ops with_comm (optimizer_of [dense_param] 0, 0%nat) [OpStep None])
            (OpJustifyScale 1024))
    with (snd (justify_scale 1024
                 (fst (run_ops with_comm (optimizer_of [dense_param] 0, 0%nat)
                         [OpStep None]))),
          snd (run_ops with_comm (optimizer_of [dense_param] 0, 0%nat)
                 [OpStep None])).
  rewrite (justify_scale_ok 1024 _ scale_after_first_step).
  reflexivity.
Defined.
